(** * bin/api-docs/update-api-docs.js: the documentation token updater

    A shallow embedding of the script that scans README and data
    documentation files for [<!-- START TOKEN(...) -->] markers and runs the
    [docgen] binary once per marker.

    JavaScript strings are sequences of UTF-16 code units; they are modelled
    as [list N].  The regular expression is embedded as continuation-passing
    matchers in the style of the ECMAScript specification (a matcher takes a
    state and a continuation and returns a final state or a failure), so
    that lazy and greedy quantifiers backtrack in the order the engine does.
    The asynchronous parts of the script are embedded as programs over an
    explicit type of effects and run against an arbitrary environment. *)

From stdpp Require Import base option list gmap strings.
From Stdlib Require Import NArith Lia Sorted.

Local Open Scope nat_scope.

(** ** JavaScript strings *)

Module Js.

(** A string is a list of UTF-16 code units. *)
Abbreviation jsstring := (list N).

(** An ASCII literal of the source, as code units. *)
Definition lit (s : string) : jsstring :=
  map Ascii.N_of_ascii (String.list_ascii_of_string s).

(** [String.prototype.startsWith]. *)
Fixpoint startsWith (s p : jsstring) {struct p} : bool :=
  match p, s with
  | [], _ => true
  | _ :: _, [] => false
  | a :: p', b :: s' => if N.eqb a b then startsWith s' p' else false
  end.

(** [s.includes( p )]. *)
Definition includes (s p : jsstring) : bool :=
  existsb (λ j, startsWith (drop j s) p) (seq 0 (S (length s))).

(** [===] on strings. *)
Definition str_eqb (a b : jsstring) : bool := bool_decide (a = b).

(** [s.replace( /^p/, '' )] for a literal [p]: drops [p] when [s] starts
    with it, and leaves [s] alone otherwise. *)
Definition replace_prefix (p s : jsstring) : jsstring :=
  if startsWith s p then drop (length p) s else s.

(** [s.replace( c, r )] for a one-character string [c]: only the first
    occurrence is replaced. *)
Fixpoint replace_first (c : N) (r : jsstring) (s : jsstring) : jsstring :=
  match s with
  | [] => []
  | a :: s' => if N.eqb a c then r ++ s' else a :: replace_first c r s'
  end.

(** [s.split( c )] for a one-character separator, as a first piece and the
    pieces after it: the result of [split] is never an empty array. *)
Fixpoint split_ne (c : N) (s : jsstring) : jsstring * list jsstring :=
  match s with
  | [] => ([], [])
  | a :: s' =>
      let '(h, t) := split_ne c s' in
      if N.eqb a c then ([], h :: t) else (a :: h, t)
  end.

Definition split (c : N) (s : jsstring) : list jsstring :=
  let '(h, t) := split_ne c s in h :: t.

(** [xs.join( sep )]. *)
Fixpoint join (sep : jsstring) (xs : list jsstring) : jsstring :=
  match xs with
  | [] => []
  | [x] => x
  | x :: xs' => x ++ sep ++ join sep xs'
  end.

(** [Array.from( new Set( xs ) )]: a [Set] keeps the first insertion of
    each value, in insertion order. *)
Fixpoint set_to_array (seen : list jsstring) (xs : list jsstring)
  : list jsstring :=
  match xs with
  | [] => []
  | x :: xs' =>
      if bool_decide (x ∈ seen) then set_to_array seen xs'
      else x :: set_to_array (x :: seen) xs'
  end.

(** The longest run of leading characters that satisfy [f], and what is
    left once it is removed. *)
Fixpoint take_while (f : N → bool) (s : jsstring) : jsstring :=
  match s with
  | a :: s' => if f a then a :: take_while f s' else []
  | [] => []
  end.

Fixpoint drop_while (f : N → bool) (s : jsstring) : jsstring :=
  match s with
  | a :: s' => if f a then drop_while f s' else s
  | [] => []
  end.

(** Truthiness of a possibly undefined string: [undefined] and the empty
    string are falsy. *)
Definition truthy (v : option jsstring) : bool :=
  match v with
  | Some (_ :: _) => true
  | _ => false
  end.

End Js.
Import Js.

(** ** Node's [path] module, POSIX flavour

    The functions of [path] the script calls, after the documented behaviour
    of the POSIX implementation ([sep] is ["/"]).  [cwd] stands for
    [process.cwd()]. *)

Module Path.

Definition SLASH : N := 47.
Definition sep : jsstring := lit "/".
Definition CUR : jsstring := lit ".".
Definition UP : jsstring := lit "..".

Definition isAbsolute (p : jsstring) : bool :=
  match p with
  | c :: _ => N.eqb c SLASH
  | [] => false
  end.

(** [normalizeString]: empty and ["."] segments are dropped and [".."]
    removes the segment before it; above the top, [".."] is kept for a
    relative path and dropped for an absolute one.  [acc] holds the
    segments kept so far, last first. *)
Fixpoint normalize_segments (allowAboveRoot : bool) (acc segs : list jsstring)
  : list jsstring :=
  match segs with
  | [] => rev acc
  | seg :: rest =>
      if str_eqb seg [] || str_eqb seg CUR then
        normalize_segments allowAboveRoot acc rest
      else if str_eqb seg UP then
        match acc with
        | last :: acc' =>
            if str_eqb last UP then
              normalize_segments allowAboveRoot
                (if allowAboveRoot then UP :: acc else acc) rest
            else normalize_segments allowAboveRoot acc' rest
        | [] =>
            normalize_segments allowAboveRoot
              (if allowAboveRoot then [UP] else []) rest
        end
      else normalize_segments allowAboveRoot (seg :: acc) rest
  end.

(** The loop of [resolve], from the last argument to the first and then
    [cwd], until an absolute path has been prepended. *)
Fixpoint resolve_loop (cwd : jsstring) (rargs : list jsstring)
    (resolvedPath : jsstring) : jsstring * bool :=
  match rargs with
  | [] =>
      if str_eqb cwd [] then (resolvedPath, false)
      else (cwd ++ sep ++ resolvedPath, isAbsolute cwd)
  | path :: rest =>
      if str_eqb path [] then resolve_loop cwd rest resolvedPath
      else if isAbsolute path then (path ++ sep ++ resolvedPath, true)
      else resolve_loop cwd rest (path ++ sep ++ resolvedPath)
  end.

(** [path.resolve( ...args )]. *)
Definition resolve (cwd : jsstring) (args : list jsstring) : jsstring :=
  let '(resolvedPath, resolvedAbsolute) := resolve_loop cwd (rev args) [] in
  let segs :=
    normalize_segments (negb resolvedAbsolute) [] (split SLASH resolvedPath) in
  if resolvedAbsolute then sep ++ join sep segs
  else if bool_decide (segs = []) then CUR
  else join sep segs.

(** The segments of a resolved path. *)
Definition segments (p : jsstring) : list jsstring :=
  filter (λ seg, seg ≠ []) (split SLASH p).

(** The longest common leading segments are dropped from both lists. *)
Fixpoint drop_common (from to : list jsstring)
  : list jsstring * list jsstring :=
  match from, to with
  | f :: from', t :: to' =>
      if str_eqb f t then drop_common from' to' else (from, to)
  | _, _ => (from, to)
  end.

(** [path.relative( from, to )]: both paths are resolved; one [".."] is
    produced for each segment that is left of [from], then what is left of
    [to]. *)
Definition relative (cwd from to : jsstring) : jsstring :=
  if str_eqb from to then []
  else
    let from' := resolve cwd [from] in
    let to' := resolve cwd [to] in
    if str_eqb from' to' then []
    else
      let '(f, t) := drop_common (segments from') (segments to') in
      join sep (map (λ _, UP) f ++ t).

(** The scan of [dirname], from the end of the path down to index 1: the
    index of the last slash that has a character other than a slash after
    it.  [rpath] is the part of the path still to scan, last character
    first, so that the index of its head is the length of its tail. *)
Fixpoint dirname_scan (rpath : jsstring) (matchedSlash : bool) : option nat :=
  match rpath with
  | [] => None
  | c :: rest =>
      let i := length rest in
      if Nat.eqb i 0 then None
      else if N.eqb c SLASH then
        if matchedSlash then dirname_scan rest true else Some i
      else dirname_scan rest false
  end.

(** [path.dirname( path )]. *)
Definition dirname (path : jsstring) : jsstring :=
  match path with
  | [] => CUR
  | c :: _ =>
      let hasRoot := N.eqb c SLASH in
      match dirname_scan (rev path) true with
      | None => if hasRoot then sep else CUR
      | Some e => if hasRoot && Nat.eqb e 1 then sep ++ sep else take e path
      end
  end.

(** A name that holds no slash. *)
Definition no_slash (s : jsstring) : bool :=
  forallb (λ c, negb (N.eqb c SLASH)) s.

(** The last segment of a path, trailing slashes apart. *)
Definition last_segment (path : jsstring) : jsstring :=
  let is_slash c := N.eqb c SLASH in
  let r := drop_while is_slash (rev path) in
  rev (take_while (λ c, negb (is_slash c)) r).

(** The scan of [basename] with an extension, from the end of the path
    down to its start.  [rpath] is the part of the path still to scan, last
    character first, so that the index of its head is the length of its
    tail; [rext] is what is left of the extension to match, last character
    first, and [None] once the extension is matched or has failed; [fin] is
    the end of the result once it is known; [firstNonSlashEnd] is the index
    after the last character that is not a slash.  The scan stops at the
    first slash that is not trailing and returns the start of the result,
    [fin] and [firstNonSlashEnd]. *)
Fixpoint basename_scan (rpath : jsstring) (matchedSlash : bool)
    (rext : option jsstring) (fin firstNonSlashEnd : option nat)
  : nat * option nat * option nat :=
  match rpath with
  | [] => (0, fin, firstNonSlashEnd)
  | code :: rest =>
      let i := length rest in
      if N.eqb code SLASH then
        if negb matchedSlash then (S i, fin, firstNonSlashEnd)
        else basename_scan rest matchedSlash rext fin firstNonSlashEnd
      else
        let '(matchedSlash', firstNonSlashEnd') :=
          match firstNonSlashEnd with
          | None => (false, Some (S i))
          | Some _ => (matchedSlash, firstNonSlashEnd)
          end in
        match rext with
        | Some (e :: more) =>
            if N.eqb code e then
              match more with
              | [] =>
                  basename_scan rest matchedSlash' None (Some i)
                    firstNonSlashEnd'
              | _ :: _ =>
                  basename_scan rest matchedSlash' (Some more) fin
                    firstNonSlashEnd'
              end
            else
              basename_scan rest matchedSlash' None firstNonSlashEnd'
                firstNonSlashEnd'
        | _ => basename_scan rest matchedSlash' rext fin firstNonSlashEnd'
        end
  end.

(** [path.slice( start, fin )] for a [start] within the path; [None] is the
    index [-1], which stands for the last index of the path. *)
Definition slice (path : jsstring) (start : nat) (fin : option nat)
  : jsstring :=
  let fin' := match fin with Some e => e | None => length path - 1 end in
  take (fin' - start) (drop start path).

(** [path.basename( path, ext )].  With an extension that is not empty and
    not longer than the path, the path is scanned with the extension;
    otherwise the result is the last segment. *)
Definition basename (path ext : jsstring) : jsstring :=
  if negb (str_eqb ext []) && (length ext <=? length path) then
    if str_eqb ext path then []
    else
      let '(start, fin, firstNonSlashEnd) :=
        basename_scan (rev path) true (Some (rev ext)) None None in
      let fin' :=
        match fin with
        | Some e => if Nat.eqb start e then firstNonSlashEnd else fin
        | None => Some (length path)
        end in
      slice path start fin'
  else last_segment path.

(** [path.normalize( path )]. *)
Definition normalize (path : jsstring) : jsstring :=
  if str_eqb path [] then CUR
  else
    let isAbs := isAbsolute path in
    let trailingSeparator := startsWith (rev path) sep in
    let path' := join sep (normalize_segments (negb isAbs) [] (split SLASH path)) in
    if str_eqb path' [] then
      if isAbs then sep else if trailingSeparator then lit "./" else CUR
    else
      let path'' := if trailingSeparator then path' ++ sep else path' in
      if isAbs then sep ++ path'' else path''.

(** [path.join( ...args )]. *)
Definition join_paths (args : list jsstring) : jsstring :=
  let joined := join sep (filter (λ a, a ≠ []) args) in
  if str_eqb joined [] then CUR else normalize joined.

(** A segment of a clean path: not empty, without a slash, and neither
    ["."] nor [".."]. *)
Definition clean (seg : jsstring) : Prop :=
  seg ≠ [] ∧ no_slash seg = true ∧ seg ≠ CUR ∧ seg ≠ UP.

(** The absolute path of a list of segments. *)
Definition absolute (segs : list jsstring) : jsstring := sep ++ join sep segs.

(** The pieces between the slashes of an absolute path, the leading empty
    piece apart. *)
Definition pieces (segs : list jsstring) : list jsstring :=
  match segs with
  | [] => [[]]
  | _ => segs
  end.

End Path.
Import Path.

(** ** Regular expressions *)

Module Regex.

(** Matcher state: the input from the current end index on, and the
    captures made so far (an absent key is an [undefined] capture). *)
Record mstate := MState { ms_rest : jsstring; ms_caps : gmap nat jsstring }.

Definition cont := mstate → option mstate.
Definition matcher := mstate → cont → option mstate.

(** Line terminators, which [.] refuses: LF, CR, LS and PS. *)
Definition is_line_terminator (c : N) : bool :=
  N.eqb c 10 || N.eqb c 13 || N.eqb c 8232 || N.eqb c 8233.

Definition dot (c : N) : bool := negb (is_line_terminator c).

(** One literal character. *)
Definition chr (c : N) : matcher := λ x k,
  match ms_rest x with
  | a :: r => if N.eqb a c then k (MState r (ms_caps x)) else None
  | [] => None
  end.

Definition cat (m1 m2 : matcher) : matcher := λ x k,
  m1 x (λ y, m2 y k).

Definition eps : matcher := λ x k, k x.

(** A literal run of characters. *)
Definition str (l : jsstring) : matcher := foldr (λ c m, cat (chr c) m) eps l.

(** [C*?] for a character class [C]: the continuation is tried first, and
    one more character is taken only when it fails. *)
Fixpoint star_lazy_from (cls : N → bool) (s : jsstring)
    (caps : gmap nat jsstring) (k : cont) : option mstate :=
  match k (MState s caps) with
  | Some y => Some y
  | None =>
      match s with
      | a :: s' => if cls a then star_lazy_from cls s' caps k else None
      | [] => None
      end
  end.

(** [C+?]: one character of the class, then [C*?]. *)
Definition plus_lazy (cls : N → bool) : matcher := λ x k,
  match ms_rest x with
  | a :: s' => if cls a then star_lazy_from cls s' (ms_caps x) k else None
  | [] => None
  end.

(** [(?:m)?], greedy: [m] is tried first, and skipped only when the rest
    of the pattern fails after it. *)
Definition opt (m : matcher) : matcher := λ x k,
  match m x k with
  | Some y => Some y
  | None => k x
  end.

(** Capturing group [n]: what [m] consumed is recorded when [m] is done. *)
Definition group (n : nat) (m : matcher) : matcher := λ x k,
  m x (λ y,
    let len := length (ms_rest x) - length (ms_rest y) in
    k (MState (ms_rest y) (<[n := take len (ms_rest x)]> (ms_caps y)))).

(** One element of the iterator [matchAll] returns. *)
Record js_match := Match {
  m_index : nat;
  m_whole : jsstring;
  m_groups : gmap nat jsstring
}.

(** A match attempt anchored at the start of [s]. *)
Definition match_at (m : matcher) (s : jsstring) : option mstate :=
  m (MState s ∅) Some.

(** [s.matchAll( re )] for a global [re]: the leftmost match from
    [lastIndex] on is reported and [lastIndex] moves to its end (one
    further after an empty match).  [skip] counts the characters still to
    pass before [lastIndex], [idx] is the index of the head of [s]. *)
Fixpoint matchAll_from (m : matcher) (skip idx : nat) (s : jsstring)
  : list js_match :=
  match skip with
  | S k =>
      match s with
      | [] => []
      | _ :: s' => matchAll_from m k (S idx) s'
      end
  | O =>
      match match_at m s with
      | Some y =>
          let len := length s - length (ms_rest y) in
          Match idx (take len s) (ms_caps y) ::
          match s with
          | [] => []
          | _ :: s' => matchAll_from m (len - 1) (S idx) s'
          end
      | None =>
          match s with
          | [] => []
          | _ :: s' => matchAll_from m 0 (S idx) s'
          end
      end
  end.

Definition matchAll (m : matcher) (s : jsstring) : list js_match :=
  matchAll_from m 0 0 s.

End Regex.
Import Regex.

(** ** The script's constants and token extraction *)

(** Default path to use if the token doesn't include one. *)
Definition DEFAULT_PATH : jsstring := lit "src/index.js".

Definition TOKEN_START : jsstring := lit "<!-- START TOKEN(".
Definition TOKEN_END : jsstring := lit ") -->".
Definition PIPE : N := 124.

(** [/<!-- START TOKEN\((.+?(?:\|(.+?))?)\) -->/g] *)
Definition TOKEN_PATTERN : matcher :=
  cat (str TOKEN_START)
    (cat (group 1 (cat (plus_lazy dot)
                       (opt (cat (chr PIPE) (group 2 (plus_lazy dot))))))
         (str TOKEN_END)).

(** README file tokens: a tuple of token identifier, source path. *)
Definition WPReadmeFileTokens : Type := jsstring * jsstring.

(** README file data: a tuple of README file path, token details. *)
Definition WPReadmeFileData : Type := jsstring * list WPReadmeFileTokens.

(** [const [ , token, path = DEFAULT_PATH ] = match]: group 1 always takes
    part in a match of [TOKEN_PATTERN] (lemma [token_group1_defined]), so its
    lookup is total; group 2 may be [undefined]. *)
Definition token_of_match (m : js_match) : WPReadmeFileTokens :=
  (m_groups m !!! 1, default DEFAULT_PATH (m_groups m !! 2)).

(** The loop over [content.matchAll( TOKEN_PATTERN )] filling [tokens]. *)
Definition extract_tokens (content : jsstring) : list WPReadmeFileTokens :=
  map token_of_match (matchAll TOKEN_PATTERN content).


(** ** Markers

    The vocabulary of the statements about token extraction. *)

(** The text of a marker around what is between its parentheses. *)
Definition marker (inner : jsstring) : jsstring :=
  TOKEN_START ++ inner ++ TOKEN_END.

(** [t] followed by [") -->"] shows a [") -->"] that starts after the first
    character of [t] and before its end. *)
Definition closes_early (t : jsstring) : bool :=
  existsb (λ j, startsWith (drop j (t ++ TOKEN_END)) TOKEN_END)
          (seq 1 (length t - 1)).

(** What can stand between the parentheses of a marker: at least one
    character, no line terminator, and no earlier end of the marker. *)
Definition well_formed_inner (t : jsstring) : bool :=
  negb (str_eqb t []) && forallb dot t && negb (closes_early t).

Definition no_pipe (t : jsstring) : bool :=
  forallb (λ c, negb (N.eqb c PIPE)) t.

(** [p] occurs somewhere in [s]; [includes] decides it. *)
Definition occurs (p s : jsstring) : Prop := ∃ a b, s = a ++ p ++ b.

(** The content holds a marker: the opening, at least one character and no
    line terminator up to a closing. *)
Definition has_marker (content : jsstring) : Prop :=
  ∃ before inner after,
    content = before ++ marker inner ++ after ∧
    inner ≠ [] ∧ forallb dot inner = true.

(** ** Documents made of markers

    A text written as a list of markers, each after a gap of other text,
    and an ending: the vocabulary of the statements about whole files. *)

(** One marker of a text: the text before it, the name it gives and the
    path it gives, if any. *)
Record piece := Piece {
  p_gap : jsstring;
  p_name : jsstring;
  p_path : option jsstring
}.

(** What stands between the parentheses of the marker. *)
Definition piece_inner (p : piece) : jsstring :=
  match p_path p with
  | Some path => p_name p ++ PIPE :: path
  | None => p_name p
  end.

Definition piece_text (p : piece) : jsstring :=
  p_gap p ++ marker (piece_inner p).

(** The tuple the marker stands for. *)
Definition piece_token (p : piece) : WPReadmeFileTokens :=
  (piece_inner p, default DEFAULT_PATH (p_path p)).

(** The gap holds no opening of a marker; what is between the parentheses
    is well formed; the name is not empty and has no pipe after its first
    character; the path, when given, is not empty. *)
Definition piece_ok (p : piece) : bool :=
  negb (includes (p_gap p) TOKEN_START) &&
  well_formed_inner (piece_inner p) &&
  negb (str_eqb (p_name p) []) &&
  no_pipe (tail (p_name p)) &&
  match p_path p with
  | Some path => negb (str_eqb path [])
  | None => true
  end.

Fixpoint document (ps : list piece) (ending : jsstring) : jsstring :=
  match ps with
  | [] => ending
  | p :: ps' => piece_text p ++ document ps' ending
  end.

(** ** Glob patterns

    What [fast-glob] does with the patterns the script builds, after its
    documented syntax: a braced list of two or more alternatives is
    expanded, unless one of them starts with [^]; [*] stands for any run of
    characters other than a slash; the [dot] option being off, neither [*]
    nor an alternative of a braced list takes a dot that starts a segment;
    the other characters of a pattern stand for themselves.  The further
    special characters of the syntax are listed in [is_special] and are not
    given a meaning here: the statements below are about patterns that have
    none of them outside the ones the script writes. *)

Module Glob.

Definition STAR : N := 42.
Definition DOT : N := 46.
Definition COMMA : N := 44.
Definition LBRACE : N := 123.
Definition RBRACE : N := 125.
Definition CARET : N := 94.

Definition is_special (c : N) : bool :=
  bool_decide (c ∈ lit "*?[]{}()!+@\|,").

(** A name without special characters. *)
Definition plain (s : jsstring) : bool := forallb (λ c, negb (is_special c)) s.

(** A letter, a digit, [-] or [_]. *)
Definition name_char (c : N) : bool :=
  (N.leb 97 c && N.leb c 122) || (N.leb 65 c && N.leb c 90) ||
  (N.leb 48 c && N.leb c 57) || N.eqb c 45 || N.eqb c 95.

(** A name made of such characters, at least one. *)
Definition simple_name (s : jsstring) : bool :=
  negb (str_eqb s []) && forallb name_char s.

(** A path made of such characters and slashes. *)
Definition simple_path (s : jsstring) : bool :=
  forallb (λ c, name_char c || N.eqb c Path.SLASH) s.

(** [*] before the rest [k] of a pattern: [k] is tried first, and one more
    character other than a slash is passed when it fails. *)
Fixpoint star_loop (k : jsstring → bool) (s : jsstring) : bool :=
  k s ||
  match s with
  | a :: s' => negb (N.eqb a Path.SLASH) && star_loop k s'
  | [] => false
  end.

(** [wild p s seg_start]: the pattern [p], without braces, matches the
    whole of [s]; [seg_start] tells that [s] starts a path segment. *)
Fixpoint wild (p : jsstring) : jsstring → bool → bool :=
  match p with
  | [] => λ s _, str_eqb s []
  | c :: p' =>
      if N.eqb c STAR then
        λ s seg_start,
          if seg_start && startsWith s [DOT] then false
          else star_loop (λ s', wild p' s' false) s
      else
        λ s _,
          match s with
          | a :: s' => N.eqb a c && wild p' s' (N.eqb a Path.SLASH)
          | [] => false
          end
  end.

(** The first braced list of a pattern: what is before it, its
    alternatives, and what is after it. *)
Definition brace_split (p : jsstring)
  : option (jsstring * list jsstring * jsstring) :=
  let before := take_while (λ c, negb (N.eqb c LBRACE)) p in
  match drop (length before) p with
  | _ :: inner =>
      let body := take_while (λ c, negb (N.eqb c RBRACE)) inner in
      match drop (length body) inner with
      | _ :: after => Some (before, split COMMA body, after)
      | [] => None
      end
  | [] => None
  end.

(** Brace expansion, as the search goes with the [dot] option off.  A
    braced list of fewer than two alternatives is not expanded, and neither
    is a list with an alternative that starts with [^]; an alternative that
    starts a path segment with a dot is not discovered. *)
Definition expand (p : jsstring) : list jsstring :=
  match brace_split p with
  | Some (before, (_ :: _ :: _) as alts, after) =>
      if existsb (λ a, startsWith a [CARET]) alts then [p]
      else
        let starts_segment :=
          str_eqb before [] || startsWith (rev before) [Path.SLASH] in
        map (λ a, before ++ a ++ after)
          (List.filter (λ a, negb (starts_segment && startsWith a [DOT]))
             alts)
  | _ => [p]
  end.

(** A path is matched when one of the patterns matches it. *)
Definition glob_match (patterns : list jsstring) (path : jsstring) : bool :=
  existsb (λ p, existsb (λ e, wild e path true) (expand p)) patterns.

End Glob.
Import Glob.


(** ** Asynchronous programs

    The effects of the script, the programs built from them, and their runs
    against an environment that answers each effect from the trace so far. *)

Module Async.

(** The reason of a rejection. *)
Definition js_error : Type := jsstring.

(** A settled promise. *)
Inductive settled (A : Type) : Type :=
| Fulfilled (a : A)
| Rejected (e : js_error).
Arguments Fulfilled {A} a.
Arguments Rejected {A} e.

(** The arguments of a call [execa( file, args, { shell } )]. *)
Record invocation := Invocation {
  inv_file : jsstring;
  inv_args : list jsstring;
  inv_shell : bool
}.

(** [ReadFile] is [await readFile( file, encoding )], answered by how the
    promise settles.  [Execa] starts the child process and answers with
    its promise, and [Await] suspends until that promise settles. *)
Inductive eff : Type → Type :=
| ReadFile (file encoding : jsstring) : eff (settled jsstring)
| Push (chunk : WPReadmeFileData) : eff unit
| Callback (error : option js_error) : eff unit
| Execa (i : invocation) : eff nat
| Await (promise : nat) : eff (settled unit).

Inductive prog (R : Type) : Type :=
| Ret (r : R)
| Throw (e : js_error)
| Vis {X : Type} (e : eff X) (k : X → prog R).
Arguments Ret {R} r.
Arguments Throw {R} e.
Arguments Vis {R X} e k.

Fixpoint bind {A B : Type} (p : prog A) (f : A → prog B) : prog B :=
  match p with
  | Ret a => f a
  | Throw e => Throw e
  | Vis e k => Vis e (λ x, bind (k x) f)
  end.

(** [try { p } catch ( e ) { h e }]. *)
Fixpoint try_catch {A : Type} (p : prog A) (h : js_error → prog A) : prog A :=
  match p with
  | Ret a => Ret a
  | Throw e => h e
  | Vis e k => Vis e (λ x, try_catch (k x) h)
  end.

Definition perform {X : Type} (e : eff X) : prog X := Vis e Ret.

(** [await] of an effect answered by a settled promise: a rejection is
    thrown at the [await]. *)
Definition await {A : Type} (e : eff (settled A)) : prog A :=
  Vis e (λ r, match r with
              | Fulfilled a => Ret a
              | Rejected err => Throw err
              end).

(** [for ( const x of xs ) { body x }]. *)
Fixpoint for_of {A : Type} (xs : list A) (body : A → prog unit) : prog unit :=
  match xs with
  | [] => Ret tt
  | x :: xs' => bind (body x) (λ _, for_of xs' body)
  end.

(** What a run leaves in the trace for an effect and its answer. *)
Inductive event : Type :=
| EvReadFile (file encoding : jsstring) (r : settled jsstring)
| EvPush (chunk : WPReadmeFileData)
| EvCallback (error : option js_error)
| EvExeca (i : invocation) (promise : nat)
| EvAwait (promise : nat) (r : settled unit).

Definition record {X : Type} (e : eff X) : X → event :=
  match e in eff X return X → event with
  | ReadFile file encoding => EvReadFile file encoding
  | Push chunk => λ _, EvPush chunk
  | Callback error => λ _, EvCallback error
  | Execa i => EvExeca i
  | Await promise => EvAwait promise
  end.

(** The environment: the answer to an effect, given the trace so far. *)
Definition env : Type := ∀ X : Type, list event → eff X → X.

Inductive outcome (R : Type) : Type :=
| Returned (r : R)
| Threw (e : js_error).
Arguments Returned {R} r.
Arguments Threw {R} e.

(** The run of a program from the trace [tr]: the trace at its end, and
    whether it returned or threw. *)
Fixpoint run {R : Type} (w : env) (tr : list event) (p : prog R)
  : list event * outcome R :=
  match p with
  | Ret r => (tr, Returned r)
  | Throw e => (tr, Threw e)
  | Vis e k => let x := w _ tr e in run w (tr ++ [record e x]) (k x)
  end.

(** The chunks pushed, the processes started and the results awaited in a
    trace, in order. *)
Definition pushed (tr : list event) : list WPReadmeFileData :=
  omap (λ ev, match ev with EvPush chunk => Some chunk | _ => None end) tr.

Definition spawned (tr : list event) : list invocation :=
  omap (λ ev, match ev with EvExeca i _ => Some i | _ => None end) tr.

Definition awaited (tr : list event) : list (settled unit) :=
  omap (λ ev, match ev with EvAwait _ r => Some r | _ => None end) tr.

End Async.
Import Async.

#[global] Instance prog_ret : MRet prog := λ A, @Ret A.
#[global] Instance prog_bind : MBind prog := λ A B f p, bind p f.

(** ** The script *)

(** Returns the conventional store name of a given package. *)
Definition getPackageStoreName (packageName : jsstring) : jsstring :=
  let storeName := lit "core" in
  if negb (str_eqb packageName (lit "core-data"))
  then storeName ++ lit "/" ++ packageName
  else storeName.

(** Returns the conventional package name of a given documentation file
    name. *)
Definition getDataDocumentationFilePackage (file : jsstring) : jsstring :=
  let packageName :=
    replace_prefix (lit "core-") (replace_prefix (lit "data-") file) in
  if str_eqb packageName (lit "core")
  then packageName ++ lit "-data"
  else packageName.

(** Returns the conventional documentation file name of a given package. *)
Definition getDataDocumentationFile (packageName : jsstring) : jsstring :=
  let storeName := getPackageStoreName packageName in
  lit "data-" ++ replace_first Path.SLASH (lit "-") storeName ++ lit ".md".

Section Script.

(** The directory of the script, and [process.cwd()]. *)
Variable __dirname : jsstring.
Variable cwd : jsstring.

(** Path to root project directory. *)
Definition ROOT_DIR : jsstring := Path.resolve cwd [__dirname; lit "../.."].

(** Path to packages directory. *)
Definition PACKAGES_DIR : jsstring :=
  Path.resolve cwd [ROOT_DIR; lit "packages"].

(** Path to data documentation directory. *)
Definition DATA_DOCS_DIR : jsstring :=
  Path.resolve cwd [ROOT_DIR; lit "docs/designers-developers/developers/data"].

(** Given an absolute file path, returns the package name.  [split] never
    returns an empty array, so element 0 is always there. *)
Definition getFilePackage (file : jsstring) : jsstring :=
  if startsWith file PACKAGES_DIR
  then hd [] (split Path.SLASH (Path.relative cwd PACKAGES_DIR file))
  else getDataDocumentationFilePackage (Path.basename file (lit ".md")).

(** Returns an appropriate glob pattern for the packages directory to
    match relevant documentation files for a given set of files. *)
Definition getPackagePattern (files : list jsstring) : jsstring :=
  match files with
  | [] => lit "*"
  | _ :: _ =>
      let packages := set_to_array [] (map getFilePackage files) in
      match packages with
      | [package] => package
      | _ => lit "{" ++ join (lit ",") packages ++ lit "}"
      end
  end.

(** Returns an appropriate glob pattern for the data documentation
    directory to match relevant documentation files for a given set of
    files. *)
Definition getDataDocumentationPattern (files : list jsstring) : jsstring :=
  match files with
  | [] => lit "*"
  | _ :: _ =>
      let filePackages := set_to_array [] (map getFilePackage files) in
      let docFiles := map getDataDocumentationFile filePackages in
      match docFiles with
      | [docFile] => docFile
      | _ => lit "{" ++ join (lit ",") docFiles ++ lit "}"
      end
  end.

(** The two patterns handed to [glob.stream]. *)
Definition glob_patterns (files : list jsstring) : list jsstring :=
  [ PACKAGES_DIR ++ lit "/" ++ getPackagePattern files ++ lit "/README.md";
    DATA_DOCS_DIR ++ lit "/" ++ getDataDocumentationPattern files ].

(** Stream transform which filters out README files to include only those
    containing matched token pattern, yielding a tuple of the file and its
    matched tokens. *)
Definition filterTokenTransform (file : jsstring) : prog unit :=
  content ← try_catch
              (c ← await (ReadFile file (lit "utf8")); mret (Some c))
              (λ _, mret None);
  _ ← (if truthy content then
         let tokens := extract_tokens (default [] content) in
         match tokens with
         | _ :: _ => perform (Push (file, tokens))
         | [] => mret tt
         end
       else mret tt);
  perform (Callback None).

(** The command line of one [docgen] run. *)
Definition docgen_invocation (file : jsstring) (tp : WPReadmeFileTokens)
  : invocation :=
  let '(token, path) := tp in
  let output := Path.relative cwd ROOT_DIR file in
  Invocation
    (Path.join_paths
       [__dirname; lit ".."; lit ".."; lit "node_modules"; lit ".bin";
        lit "docgen"])
    [ Path.relative cwd ROOT_DIR (Path.resolve cwd [Path.dirname file; path]);
      lit "--output " ++ output;
      lit "--to-token";
      lit "--use-token " ++ [34%N] ++ token ++ [34%N];
      lit "--ignore " ++ [34%N] ++ lit "/unstable|experimental/i" ++ [34%N] ]
    true.

(** The listener of the stream's [data] event. *)
Definition on_data (data : WPReadmeFileData) : prog unit :=
  let '(file, tokens) := data in
  for_of tokens (λ tp,
    promise ← perform (Execa (docgen_invocation file tp));
    await (Await promise)).

(** The [docgen] runs that one discovered file leads to: the listener is
    run once for each chunk the transform pushes, from the trace the
    transform left. *)
Definition file_invocations (w : env) (file : jsstring) : list invocation :=
  let tr := fst (run w [] (filterTokenTransform file)) in
  flat_map (λ data, spawned (drop (length tr) (fst (run w tr (on_data data)))))
           (pushed tr).

End Script.

(** ** Sample environments *)

(** A checkout of the project, with the script in [bin/api-docs]. *)
Definition sample_dirname : jsstring := lit "/home/user/gutenberg/bin/api-docs".
Definition sample_cwd : jsstring := lit "/home/user/gutenberg".

(** The README of a package [foo], and two tokens for it. *)
Definition sample_file : jsstring :=
  lit "/home/user/gutenberg/packages/foo/README.md".

Definition sample_tokens : list WPReadmeFileTokens :=
  [ (lit "Autogenerated API docs", DEFAULT_PATH);
    (lit "Autogenerated selectors|src/store/selectors.js",
     lit "src/store/selectors.js") ].

(** Every file reads as [content] and every process exits with success. *)
Definition env_ok (content : jsstring) : env := λ X tr e,
  match e in eff X return X with
  | ReadFile _ _ => Fulfilled content
  | Push _ => tt
  | Callback _ => tt
  | Execa _ => length tr
  | Await _ => Fulfilled tt
  end.

(** No file can be read and every process fails. *)
Definition env_failing (reason : js_error) : env := λ X tr e,
  match e in eff X return X with
  | ReadFile _ _ => Rejected reason
  | Push _ => tt
  | Callback _ => tt
  | Execa _ => length tr
  | Await _ => Rejected reason
  end.

(** ** Sequential traces

    [in_sequence invs evs]: the events [evs] are, for each of the invocations
    [invs] in order, the start of the process followed at once by the await
    of its promise, and every await but the last was fulfilled. *)

Inductive in_sequence : list invocation → list event → Prop :=
| in_sequence_nil : in_sequence [] []
| in_sequence_cons i promise r invs evs :
    (evs ≠ [] → r = Fulfilled tt) →
    in_sequence invs evs →
    in_sequence (i :: invs) (EvExeca i promise :: EvAwait promise r :: evs).

(** Every process that is awaited ends well. *)
Definition always_fulfils (w : env) : Prop :=
  ∀ tr promise, w _ tr (Await promise) = Fulfilled tt.

(** * Facts about the embedding *)

(** ** Strings *)

Section StringFacts.

Lemma startsWith_prefix (s p : jsstring) :
  startsWith s p = true ↔ p `prefix_of` s.
Proof.
  revert s; induction p as [|a p IH]; intros s; simpl.
  - split; [intros _; apply prefix_nil | done].
  - destruct s as [|b s]; simpl.
    + split; [done | intros [r Hr]; discriminate].
    + destruct (N.eqb_spec a b) as [->|Hne].
      * rewrite IH. split; [apply prefix_cons | apply prefix_cons_inv_2].
      * split; [done | intros H; apply prefix_cons_inv_1 in H; congruence].
Qed.

Lemma startsWith_app (p r : jsstring) : startsWith (p ++ r) p = true.
Proof. apply startsWith_prefix. by exists r. Qed.

Lemma startsWith_split (s p : jsstring) :
  startsWith s p = true → s = p ++ drop (length p) s.
Proof.
  intros [r ->]%startsWith_prefix. by rewrite drop_app_length.
Qed.

Lemma startsWith_app_long (x y p : jsstring) :
  length p ≤ length x → startsWith (x ++ y) p = startsWith x p.
Proof.
  revert x; induction p as [|a p IH]; intros x Hlen; simpl; [done|].
  destruct x as [|b x]; simpl in *; [lia|].
  destruct (N.eqb a b); [apply IH; lia | done].
Qed.

Lemma startsWith_head (s p : jsstring) (a b : N) :
  a ≠ b → startsWith (b :: s) (a :: p) = false.
Proof. intros Hne. simpl. by destruct (N.eqb_spec a b). Qed.

Lemma str_eqb_eq (a b : jsstring) : str_eqb a b = true ↔ a = b.
Proof. unfold str_eqb. apply bool_decide_eq_true. Qed.

Lemma str_eqb_refl (a : jsstring) : str_eqb a a = true.
Proof. by apply str_eqb_eq. Qed.

Lemma str_eqb_neq (a b : jsstring) : a ≠ b → str_eqb a b = false.
Proof. unfold str_eqb. apply bool_decide_eq_false. Qed.

Lemma take_consumed (s x v : jsstring) :
  s = x ++ v → take (length s - length v) s = x.
Proof.
  intros ->. rewrite length_app.
  replace (length x + length v - length v) with (length x) by lia.
  by rewrite take_app_length.
Qed.

Lemma includes_false (s p : jsstring) :
  includes s p = false → ¬ occurs p s.
Proof.
  unfold includes. intros Hinc (a & b & ->).
  apply not_true_iff_false in Hinc. apply Hinc, existsb_exists.
  exists (length a). split.
  - apply in_seq. rewrite length_app. lia.
  - by rewrite drop_app_length, startsWith_app.
Qed.

End StringFacts.

Lemma map_lookup_Some {A B : Type} (f : A → B) (l : list A) (i : nat) (y : B) :
  map f l !! i = Some y → ∃ x, l !! i = Some x ∧ y = f x.
Proof.
  revert i; induction l as [|a l IH]; intros [|i]; simpl; try done.
  - intros [= <-]. by exists a.
  - apply IH.
Qed.

(** ** The embedding at documented inputs *)

(** The examples of the documentation of [path], POSIX flavour. *)
Example path_basename_documented :
  basename (lit "/foo/bar/baz/asdf/quux.html") [] = lit "quux.html" ∧
  basename (lit "/foo/bar/baz/asdf/quux.html") (lit ".html") = lit "quux".
Proof. split; by vm_compute. Qed.

Example path_dirname_documented :
  dirname (lit "/foo/bar/baz/asdf/quux") = lit "/foo/bar/baz/asdf".
Proof. by vm_compute. Qed.

Example path_join_documented :
  join_paths [lit "/foo"; lit "bar"; lit "baz/asdf"; lit "quux"; lit ".."] =
  lit "/foo/bar/baz/asdf".
Proof. by vm_compute. Qed.

Example path_normalize_documented :
  normalize (lit "/foo/bar//baz/asdf/quux/..") = lit "/foo/bar/baz/asdf".
Proof. by vm_compute. Qed.

Example path_relative_documented :
  relative sample_cwd (lit "/data/orandea/test/aaa")
    (lit "/data/orandea/impl/bbb") = lit "../../impl/bbb".
Proof. by vm_compute. Qed.

Example path_resolve_documented :
  resolve sample_cwd [lit "/foo/bar"; lit "./baz"] = lit "/foo/bar/baz" ∧
  resolve sample_cwd [lit "/foo/bar"; lit "/tmp/file/"] = lit "/tmp/file" ∧
  resolve (lit "/home/myself/node")
    [lit "wwwroot"; lit "static_files/png/"; lit "../gif/image.gif"] =
  lit "/home/myself/node/wwwroot/static_files/gif/image.gif".
Proof. split_and!; by vm_compute. Qed.

(** The directories of the sample checkout. *)
Example sample_directories :
  ROOT_DIR sample_dirname sample_cwd = lit "/home/user/gutenberg" ∧
  PACKAGES_DIR sample_dirname sample_cwd = lit "/home/user/gutenberg/packages" ∧
  DATA_DOCS_DIR sample_dirname sample_cwd =
    lit "/home/user/gutenberg/docs/designers-developers/developers/data".
Proof. split_and!; by vm_compute. Qed.

(** Packages of files: under the packages directory, the first segment
    after it; elsewhere, the name derived from the file name. *)
Example sample_file_packages :
  getFilePackage sample_dirname sample_cwd
    (lit "/home/user/gutenberg/packages/block-editor/src/index.js")
    = lit "block-editor" ∧
  getFilePackage sample_dirname sample_cwd
    (lit "/home/user/gutenberg/docs/designers-developers/developers/data/data-core-blocks.md")
    = lit "blocks" ∧
  getFilePackage sample_dirname sample_cwd
    (lit "/home/user/gutenberg/docs/designers-developers/developers/data/data-core.md")
    = lit "core-data".
Proof. split_and!; by vm_compute. Qed.

(** Patterns for two packages are braced lists. *)
Example sample_patterns_two_packages :
  glob_patterns sample_dirname sample_cwd
    [ lit "/home/user/gutenberg/packages/foo/src/index.js";
      lit "/home/user/gutenberg/packages/core-data/README.md";
      lit "/home/user/gutenberg/packages/foo/README.md" ] =
  [ lit "/home/user/gutenberg/packages/{foo,core-data}/README.md";
    lit "/home/user/gutenberg/docs/designers-developers/developers/data/{data-core-foo.md,data-core.md}" ].
Proof. by vm_compute. Qed.

(** Two markers of a README, the second with a path. *)
Example sample_extraction :
  extract_tokens
    (lit "# Foo" ++ [10%N] ++
     lit "<!-- START TOKEN(Autogenerated API docs) -->" ++ [10%N] ++
     lit "<!-- END TOKEN(Autogenerated API docs) -->" ++ [10%N] ++
     lit "<!-- START TOKEN(Autogenerated selectors|src/store/selectors.js) -->")
  = sample_tokens.
Proof. by vm_compute. Qed.

(** A marker does not run over the end of a line, and an empty marker is
    none. *)
Example sample_extraction_none :
  extract_tokens (lit "<!-- START TOKEN(Auto" ++ [10%N] ++ lit "docs) -->") = [] ∧
  extract_tokens (lit "<!-- START TOKEN() -->") = [].
Proof. split; by vm_compute. Qed.

(** A pipe that starts or ends the text of a marker separates nothing. *)
Example sample_extraction_pipes :
  extract_tokens (lit "<!-- START TOKEN(|x) -->") = [(lit "|x", DEFAULT_PATH)] ∧
  extract_tokens (lit "<!-- START TOKEN(x|) -->") = [(lit "x|", DEFAULT_PATH)] ∧
  extract_tokens (lit "<!-- START TOKEN(a|b|c) -->") = [(lit "a|b|c", lit "b|c")].
Proof. split_and!; by vm_compute. Qed.

(** [basename] with an extension, on paths that end with slashes or with a
    part of the extension. *)
Example path_basename_edges :
  basename (lit "/x/md/") (lit ".md") = lit "md/" ∧
  basename (lit "///") (lit ".md") = lit "///" ∧
  basename (lit "/foo/.md") (lit ".md") = lit ".md" ∧
  basename (lit "a.md/") (lit ".md") = lit "a" ∧
  basename (lit "aaa/bbb.md.md") (lit ".md") = lit "bbb.md" ∧
  basename (lit "x.mdx") (lit ".md") = lit "x.mdx" ∧
  basename (lit "/a/b//") (lit ".md") = lit "b" ∧
  basename (lit ".md") (lit ".md") = [] ∧
  basename (lit "/") (lit ".md") = [].
Proof. split_and!; by vm_compute. Qed.

(** In a braced list, an alternative that starts with a dot is not found,
    and a list with an alternative that starts with [^] names no package. *)
Example braced_list_edges :
  glob_match [lit "/r/packages/{.hidden,foo}/README.md"]
    (lit "/r/packages/.hidden/README.md") = false ∧
  glob_match [lit "/r/packages/{.hidden,foo}/README.md"]
    (lit "/r/packages/foo/README.md") = true ∧
  glob_match [lit "/r/packages/{^w,foo}/README.md"]
    (lit "/r/packages/foo/README.md") = false ∧
  glob_match [lit "/r/packages/{bar,foo}/README.md"]
    (lit "/r/packages/foo/README.md") = true.
Proof. split_and!; by vm_compute. Qed.

(** ** Paths *)

Section PathFacts.

Lemma take_while_all (f : N → bool) (s : jsstring) :
  forallb f s = true → take_while f s = s.
Proof.
  induction s as [|a s IH]; simpl; [done|].
  intros [Ha Hs]%andb_true_iff. by rewrite Ha, IH.
Qed.

Lemma drop_while_none (f : N → bool) (s : jsstring) :
  forallb (λ c, negb (f c)) s = true → drop_while f s = s.
Proof.
  destruct s as [|a s]; simpl; [done|].
  intros [Ha _]%andb_true_iff. apply negb_true_iff in Ha. by rewrite Ha.
Qed.

Lemma forallb_rev (f : N → bool) (s : jsstring) :
  forallb f (rev s) = forallb f s.
Proof.
  induction s as [|a s IH]; simpl; [done|].
  rewrite forallb_app, IH. simpl. rewrite andb_true_r. apply andb_comm.
Qed.

(** The scan passes what is left of a name once the extension is settled. *)
Lemma basename_scan_pass (s rest : jsstring) (fin : option nat) (f : nat) :
  no_slash s = true →
  basename_scan (s ++ rest) false None fin (Some f) =
  basename_scan rest false None fin (Some f).
Proof.
  induction s as [|c s IH]; [done|]. intros [Hc Hs]%andb_true_iff.
  apply negb_true_iff in Hc. cbn [app basename_scan]. rewrite Hc.
  by apply IH.
Qed.

(** The scan of the extension [.md] at the end of a path. *)
Lemma basename_scan_md (rest : jsstring) :
  ∃ f, basename_scan (rev (lit ".md") ++ rest) true (Some (rev (lit ".md")))
         None None =
       basename_scan rest false None (Some (length rest)) (Some f).
Proof. eexists. reflexivity. Qed.

(** The extension is taken off the name of a file in a directory. *)
Lemma basename_md_dir (dir stem : jsstring) :
  stem ≠ [] → no_slash stem = true →
  basename (dir ++ SLASH :: stem ++ lit ".md") (lit ".md") = stem.
Proof.
  intros Hne Hslash. unfold basename.
  replace (length (lit ".md") <=? length (dir ++ SLASH :: stem ++ lit ".md"))
    with true.
  2:{ symmetry. apply Nat.leb_le. rewrite length_app. cbn [length].
      rewrite length_app. change (length (lit ".md")) with 3. lia. }
  rewrite (str_eqb_neq (lit ".md") (dir ++ SLASH :: stem ++ lit ".md")).
  2:{ intros Heq%(f_equal length). rewrite length_app in Heq.
      cbn [length] in Heq. rewrite length_app in Heq.
      change (length (lit ".md")) with 3 in Heq. lia. }
  rewrite (str_eqb_neq (lit ".md") []) by done. cbn [negb andb].
  replace (rev (dir ++ SLASH :: stem ++ lit ".md"))
    with (rev (lit ".md") ++ rev stem ++ SLASH :: rev dir).
  2:{ rewrite rev_app_distr. cbn [rev]. rewrite rev_app_distr.
      by rewrite <- !app_assoc. }
  destruct (basename_scan_md (rev stem ++ SLASH :: rev dir)) as [f ->].
  rewrite basename_scan_pass by (unfold no_slash; by rewrite forallb_rev).
  cbn [basename_scan]. rewrite N.eqb_refl. cbn [negb].
  rewrite length_app. cbn [length]. rewrite !length_rev.
  replace (S (length dir) =? length stem + S (length dir)) with false.
  2:{ symmetry. apply Nat.eqb_neq. destruct stem; [done|simpl; lia]. }
  unfold slice. cbv zeta.
  replace (length stem + S (length dir) - S (length dir)) with (length stem)
    by lia.
  change (dir ++ SLASH :: stem ++ lit ".md")
    with (dir ++ [SLASH] ++ stem ++ lit ".md").
  rewrite app_assoc, drop_app_length'.
  2:{ rewrite length_app. simpl. lia. }
  by rewrite take_app_length.
Qed.

(** The extension is taken off a file name that has more than it. *)
Lemma basename_md (stem : jsstring) :
  stem ≠ [] → no_slash stem = true →
  basename (stem ++ lit ".md") (lit ".md") = stem.
Proof.
  intros Hne Hslash. unfold basename.
  replace (length (lit ".md") <=? length (stem ++ lit ".md")) with true.
  2:{ symmetry. apply Nat.leb_le. rewrite length_app. lia. }
  rewrite (str_eqb_neq (lit ".md") (stem ++ lit ".md")).
  2:{ intros Heq%(f_equal length). rewrite length_app in Heq.
      destruct stem; [done | simpl in Heq; lia]. }
  rewrite (str_eqb_neq (lit ".md") []) by done. cbn [negb andb].
  rewrite rev_app_distr.
  rewrite <- (app_nil_r (rev stem)).
  destruct (basename_scan_md (rev stem ++ [])) as [f ->].
  rewrite basename_scan_pass by (unfold no_slash; by rewrite forallb_rev).
  cbn [basename_scan]. rewrite app_nil_r, length_rev.
  replace (0 =? length stem) with false.
  2:{ symmetry. apply Nat.eqb_neq. by destruct stem. }
  unfold slice. cbn [default]. rewrite Nat.sub_0_r, drop_0.
  by rewrite take_app_length.
Qed.

End PathFacts.

Section CleanPaths.
Variable cwd : jsstring.

Lemma split_ne_no_slash (s : jsstring) :
  no_slash s = true → split_ne SLASH s = (s, []).
Proof.
  induction s as [|a s IH]; simpl; [done|].
  intros [Ha Hs]%andb_true_iff. rewrite (IH Hs).
  apply negb_true_iff in Ha. by rewrite Ha.
Qed.

Lemma split_ne_app (s rest : jsstring) :
  no_slash s = true →
  split_ne SLASH (s ++ SLASH :: rest) = (s, split SLASH rest).
Proof.
  induction s as [|a s IH]; simpl.
  - intros _. unfold split. by destruct (split_ne SLASH rest).
  - intros [Ha Hs]%andb_true_iff. rewrite (IH Hs).
    apply negb_true_iff in Ha. by rewrite Ha.
Qed.

Lemma split_app (s rest : jsstring) :
  no_slash s = true → split SLASH (s ++ SLASH :: rest) = s :: split SLASH rest.
Proof. intros Hs. unfold split at 1. by rewrite split_ne_app. Qed.

Lemma split_no_slash (s : jsstring) :
  no_slash s = true → split SLASH s = [s].
Proof. intros Hs. unfold split. by rewrite split_ne_no_slash. Qed.

Lemma split_join (segs : list jsstring) :
  segs ≠ [] → Forall (λ seg, no_slash seg = true) segs →
  split SLASH (join sep segs) = segs.
Proof.
  induction segs as [|seg segs IH]; [done|]. intros _ Hall.
  apply Forall_cons in Hall as [Hseg Hsegs].
  destruct segs as [|seg' segs]; [by apply split_no_slash|].
  change (join sep (seg :: seg' :: segs))
    with (seg ++ SLASH :: join sep (seg' :: segs)).
  rewrite split_app by done. f_equal. by apply IH.
Qed.


Lemma join_cons (x y : jsstring) (l : list jsstring) :
  join sep (x :: y :: l) = x ++ sep ++ join sep (y :: l).
Proof. reflexivity. Qed.

Lemma join_app (l1 l2 : list jsstring) :
  l1 ≠ [] → l2 ≠ [] →
  join sep (l1 ++ l2) = join sep l1 ++ sep ++ join sep l2.
Proof.
  induction l1 as [|x l1 IH]; [done|]. intros _ Hl2.
  destruct l1 as [|y l1].
  - destruct l2; [done|]. reflexivity.
  - rewrite <- !app_comm_cons, !join_cons, app_comm_cons, IH by done.
    by rewrite <- !app_assoc.
Qed.

Lemma clean_not_special (seg : jsstring) :
  clean seg →
  str_eqb seg [] = false ∧ str_eqb seg CUR = false ∧ str_eqb seg UP = false.
Proof. intros (? & _ & ? & ?). split_and!; by apply str_eqb_neq. Qed.

(** Clean segments are kept, and empty ones dropped. *)
Lemma normalize_segments_clean (allowAboveRoot : bool)
    (acc segs : list jsstring) :
  Forall (λ seg, seg = [] ∨ clean seg) segs →
  normalize_segments allowAboveRoot acc segs =
  rev acc ++ filter (λ seg, seg ≠ []) segs.
Proof.
  revert acc; induction segs as [|seg segs IH]; intros acc Hall.
  - simpl. by rewrite app_nil_r.
  - apply Forall_cons in Hall as [[->|Hseg] Hsegs].
    + simpl. rewrite IH by done. by rewrite filter_cons_False by naive_solver.
    + destruct (clean_not_special _ Hseg) as (H1 & H2 & H3).
      simpl. rewrite H1, H2, H3. simpl. rewrite IH by done.
      destruct Hseg as [Hne _].
      rewrite filter_cons_True by done. simpl. by rewrite <- app_assoc.
Qed.

Lemma filter_clean (segs : list jsstring) :
  Forall clean segs → filter (λ seg, seg ≠ []) segs = segs.
Proof.
  induction 1 as [|seg segs [Hne _] _ IH]; [done|].
  by rewrite filter_cons_True, IH.
Qed.

Lemma clean_no_slash (segs : list jsstring) :
  Forall (λ seg, seg = [] ∨ clean seg) segs →
  Forall (λ seg, no_slash seg = true) segs.
Proof.
  intros Hall. eapply Forall_impl; [exact Hall|].
  intros seg [->|(_ & H & _)]; done.
Qed.

(** The segments of a slash-separated string of clean or empty pieces. *)
Lemma normalize_split_join (allowAboveRoot : bool) (parts : list jsstring) :
  parts ≠ [] → Forall (λ seg, seg = [] ∨ clean seg) parts →
  normalize_segments allowAboveRoot [] (split SLASH (join sep parts)) =
  filter (λ seg, seg ≠ []) parts.
Proof.
  intros Hne Hall. rewrite split_join by eauto using clean_no_slash.
  by rewrite normalize_segments_clean.
Qed.


Lemma absolute_join (segs : list jsstring) :
  absolute segs = join sep ([] :: pieces segs).
Proof. by destruct segs. Qed.

Lemma pieces_clean (segs : list jsstring) :
  Forall clean segs →
  pieces segs ≠ [] ∧
  Forall (λ seg, seg = [] ∨ clean seg) (pieces segs) ∧
  filter (λ seg, seg ≠ []) (pieces segs) = segs.
Proof.
  intros Hall. destruct segs as [|seg segs]; [by repeat constructor|].
  simpl pieces. split_and!; [done| |by apply filter_clean].
  eapply Forall_impl; [exact Hall|]. by right.
Qed.

Lemma resolve_loop_absolute (x rest : jsstring) (args : list jsstring) :
  x ≠ [] → isAbsolute x = true →
  resolve_loop cwd (x :: args) rest = (x ++ sep ++ rest, true).
Proof. intros Hx Hab. simpl. by rewrite (str_eqb_neq x []), Hab. Qed.

Lemma resolve_loop_relative (x rest : jsstring) (args : list jsstring) :
  x ≠ [] → isAbsolute x = false →
  resolve_loop cwd (x :: args) rest = resolve_loop cwd args (x ++ sep ++ rest).
Proof. intros Hx Hrel. simpl. by rewrite (str_eqb_neq x []), Hrel. Qed.

(** What [resolve] returns once the loop has met an absolute path. *)
Lemma resolve_absolute (args : list jsstring) (parts : list jsstring) :
  resolve_loop cwd (rev args) [] = (join sep ([] :: parts), true) →
  parts ≠ [] → Forall (λ seg, seg = [] ∨ clean seg) parts →
  resolve cwd args = absolute (filter (λ seg, seg ≠ []) parts).
Proof.
  intros Hloop Hne Hall. unfold resolve. rewrite Hloop.
  rewrite normalize_split_join; [|done|by constructor; [left|]].
  by rewrite filter_cons_False by naive_solver.
Qed.

Lemma absolute_nonempty (segs : list jsstring) :
  absolute segs ≠ [] ∧ isAbsolute (absolute segs) = true.
Proof. done. Qed.

(** A clean absolute path resolves to itself. *)
Lemma resolve_one (segs : list jsstring) :
  Forall clean segs → resolve cwd [absolute segs] = absolute segs.
Proof.
  intros Hall. destruct (pieces_clean segs Hall) as (Hne & Hp & Hf).
  rewrite (resolve_absolute [absolute segs] (pieces segs ++ [[]])).
  - rewrite filter_app, Hf. by rewrite app_nil_r.
  - simpl rev. destruct (absolute_nonempty segs) as [Hx Hab].
    rewrite (resolve_loop_absolute _ _ _ Hx Hab).
    f_equal. rewrite absolute_join, app_comm_cons, join_app by done.
    reflexivity.
  - by destruct (pieces segs).
  - apply Forall_app. split; [done|]. constructor; [by left|constructor].
Qed.

Lemma join_clean_relative (segs : list jsstring) :
  segs ≠ [] → Forall clean segs →
  join sep segs ≠ [] ∧ isAbsolute (join sep segs) = false.
Proof.
  intros Hne Hall. destruct segs as [|seg segs]; [done|].
  apply Forall_cons in Hall as [(Hseg & Hslash & _) _].
  destruct seg as [|c seg]; [done|]. simpl in Hslash.
  apply andb_true_iff in Hslash as [Hc%negb_true_iff _].
  destruct segs; simpl; by rewrite ?Hc.
Qed.

(** A clean relative path resolves under a clean absolute directory. *)
Lemma resolve_two (dsegs psegs : list jsstring) :
  Forall clean dsegs → Forall clean psegs → psegs ≠ [] →
  resolve cwd [absolute dsegs; join sep psegs] = absolute (dsegs ++ psegs).
Proof.
  intros Hd Hp Hne. destruct (pieces_clean dsegs Hd) as (Hdne & Hdp & Hdf).
  rewrite (resolve_absolute _ (pieces dsegs ++ psegs ++ [[]])).
  - rewrite !filter_app, Hdf, (filter_clean psegs Hp). by rewrite app_nil_r.
  - simpl rev. destruct (join_clean_relative psegs Hne Hp) as [Hx Hrel].
    rewrite (resolve_loop_relative _ _ _ Hx Hrel).
    destruct (absolute_nonempty dsegs) as [Hy Hab].
    rewrite (resolve_loop_absolute _ _ _ Hy Hab). f_equal.
    rewrite absolute_join, app_comm_cons, join_app; [|done|by destruct psegs].
    rewrite join_app by done. reflexivity.
  - by destruct (pieces dsegs).
  - rewrite !Forall_app. split_and!; [done| |by repeat constructor].
    eapply Forall_impl; [exact Hp|]. by right.
Qed.

Lemma segments_absolute (segs : list jsstring) :
  Forall clean segs → segments (absolute segs) = segs.
Proof.
  intros Hall. destruct (pieces_clean segs Hall) as (Hne & Hp & Hf).
  unfold segments. rewrite absolute_join, split_join.
  - by rewrite filter_cons_False by naive_solver.
  - done.
  - constructor; [done|]. by apply clean_no_slash.
Qed.

Lemma drop_common_prefix (segs rest : list jsstring) :
  drop_common segs (segs ++ rest) = ([], rest).
Proof.
  induction segs as [|seg segs IH]; [by destruct rest|].
  simpl. by rewrite str_eqb_refl.
Qed.

(** The path of what is under a directory, relative to the directory. *)
Lemma relative_under (rsegs rest : list jsstring) :
  Forall clean rsegs → Forall clean rest → rest ≠ [] →
  relative cwd (absolute rsegs) (absolute (rsegs ++ rest)) = join sep rest.
Proof.
  intros Hr Hrest Hne.
  assert (Hall : Forall clean (rsegs ++ rest)) by by apply Forall_app.
  assert (Hneq : absolute rsegs ≠ absolute (rsegs ++ rest)).
  { intros Heq%(f_equal segments). rewrite !segments_absolute in Heq by done.
    rewrite <- (app_nil_r rsegs) in Heq at 1.
    by apply app_inv_head in Heq. }
  unfold relative. rewrite (str_eqb_neq _ _ Hneq), !resolve_one by done.
  rewrite (str_eqb_neq _ _ Hneq), !segments_absolute by done.
  by rewrite drop_common_prefix.
Qed.

Lemma no_slash_rev (s : jsstring) : no_slash (rev s) = no_slash s.
Proof. apply forallb_rev. Qed.

Lemma dirname_scan_name (rname rest : jsstring) (matchedSlash : bool) :
  rname ≠ [] → no_slash rname = true → rest ≠ [] →
  dirname_scan (rname ++ SLASH :: rest) matchedSlash = Some (length rest).
Proof.
  revert matchedSlash; induction rname as [|c r IH]; intros b Hne Hs Hrest;
    [done|].
  simpl in Hs. apply andb_true_iff in Hs as [Hc%negb_true_iff Hs].
  rewrite <- app_comm_cons. cbn [dirname_scan]. rewrite Hc.
  rewrite length_app. cbn [length]. rewrite Nat.add_succ_r. cbn [Nat.eqb].
  destruct r as [|c' r].
  - cbn [app dirname_scan]. rewrite N.eqb_refl.
    by destruct rest.
  - by apply IH.
Qed.

Lemma dirname_scan_root (rname : jsstring) (c : N) (matchedSlash : bool) :
  no_slash rname = true → dirname_scan (rname ++ [c]) matchedSlash = None.
Proof.
  revert matchedSlash; induction rname as [|a r IH]; intros b Hs; [done|].
  simpl in Hs. apply andb_true_iff in Hs as [Ha%negb_true_iff Hs].
  rewrite <- app_comm_cons. cbn [dirname_scan]. rewrite Ha.
  rewrite length_app. cbn [length]. rewrite Nat.add_succ_r. cbn [Nat.eqb].
  by apply IH.
Qed.

(** The directory of a clean absolute path is the path of the segments
    before the last. *)
Lemma dirname_absolute (segs : list jsstring) (name : jsstring) :
  Forall clean segs → clean name →
  dirname (absolute (segs ++ [name])) = absolute segs.
Proof.
  intros Hall (Hne & Hslash & _).
  destruct segs as [|seg segs].
  - change (absolute ([] ++ [name])) with (SLASH :: name).
    unfold dirname. change (rev (SLASH :: name)) with (rev name ++ [SLASH]).
    rewrite dirname_scan_root by by rewrite no_slash_rev. done.
  - assert (Heq : absolute ((seg :: segs) ++ [name]) =
                  absolute (seg :: segs) ++ SLASH :: name).
    { unfold absolute. rewrite join_app by done. by rewrite <- app_assoc. }
    rewrite Heq. unfold dirname.
    change (absolute (seg :: segs) ++ SLASH :: name)
      with (SLASH :: (join sep (seg :: segs) ++ SLASH :: name)) at 1.
    cbv iota beta zeta. rewrite N.eqb_refl.
    rewrite rev_app_distr. simpl rev at 1. rewrite <- app_assoc.
    change ([SLASH] ++ rev (absolute (seg :: segs)))
      with (SLASH :: rev (absolute (seg :: segs))).
    rewrite dirname_scan_name.
    + rewrite length_rev.
      replace (length (absolute (seg :: segs)) =? 1) with false.
      * simpl andb. by rewrite take_app_length.
      * symmetry. apply Nat.eqb_neq. apply Forall_cons in Hall as [(Hs & _) _].
        unfold absolute. rewrite length_app.
        destruct seg; [done|]. destruct segs; simpl; lia.
    + intros Hnil%(f_equal length). rewrite length_rev in Hnil.
      by destruct name.
    + by rewrite no_slash_rev.
    + intros Hnil%(f_equal length). by rewrite length_rev in Hnil.
Qed.

(** For a file under the root, [docgen] is given the source path under the
    directory of the file, and the file, both relative to the root. *)
Lemma paths_under_root (rsegs dsegs psegs : list jsstring) (name : jsstring) :
  Forall clean rsegs → Forall clean dsegs → Forall clean psegs →
  clean name → psegs ≠ [] →
  relative cwd (absolute rsegs)
    (resolve cwd [dirname (absolute (rsegs ++ dsegs ++ [name])); join sep psegs])
    = join sep (dsegs ++ psegs) ∧
  relative cwd (absolute rsegs) (absolute (rsegs ++ dsegs ++ [name]))
    = join sep (dsegs ++ [name]).
Proof.
  intros Hr Hd Hp Hname Hne. split.
  - rewrite app_assoc, dirname_absolute; [|by apply Forall_app|done].
    rewrite resolve_two; [|by apply Forall_app|done|done].
    rewrite <- app_assoc. apply relative_under; [done| |by destruct dsegs].
    by apply Forall_app.
  - apply relative_under; [done| |by destruct dsegs].
    apply Forall_app. split; [done|]. by constructor.
Qed.

End CleanPaths.

(** ** Glob patterns *)

Section GlobFacts.

Lemma plain_cons (c : N) (p : jsstring) :
  plain (c :: p) = true →
  N.eqb c STAR = false ∧ N.eqb c LBRACE = false ∧ plain p = true.
Proof.
  unfold plain. simpl. intros [Hc Hp]%andb_true_iff.
  apply negb_true_iff in Hc. unfold is_special in Hc.
  apply bool_decide_eq_false in Hc. split_and!; [| |done].
  - destruct (N.eqb_spec c STAR) as [->|]; [|done]. exfalso. apply Hc.
    apply (bool_decide_unpack _). by vm_compute.
  - destruct (N.eqb_spec c LBRACE) as [->|]; [|done]. exfalso. apply Hc.
    apply (bool_decide_unpack _). by vm_compute.
Qed.

Lemma plain_app (p q : jsstring) : plain (p ++ q) = plain p && plain q.
Proof. apply forallb_app. Qed.

Lemma str_eqb_cons (a b : N) (s p : jsstring) :
  str_eqb (a :: s) (b :: p) = N.eqb a b && str_eqb s p.
Proof.
  unfold str_eqb. destruct (N.eqb_spec a b) as [->|Hne]; simpl.
  - apply bool_decide_ext. split; [by intros [= ->] | by intros ->].
  - apply bool_decide_eq_false. by intros [= ? ?].
Qed.

(** A pattern without special characters matches itself only. *)
Lemma wild_plain (p s : jsstring) (seg_start : bool) :
  plain p = true → wild p s seg_start = str_eqb s p.
Proof.
  revert s seg_start; induction p as [|c p IH]; intros s seg_start Hp;
    [done|].
  apply plain_cons in Hp as (Hstar & _ & Hp). simpl. rewrite Hstar.
  destruct s as [|a s]; [done|]. by rewrite IH, str_eqb_cons.
Qed.

Lemma expand_plain (p : jsstring) : plain p = true → expand p = [p].
Proof.
  intros Hp. unfold expand, brace_split.
  rewrite take_while_all, drop_all; [done|].
  induction p as [|c p IH]; [done|].
  apply plain_cons in Hp as (_ & Hb & Hp). simpl. by rewrite Hb, IH.
Qed.

Lemma glob_match_plain (p1 p2 path : jsstring) :
  plain p1 = true → plain p2 = true →
  glob_match [p1; p2] path = true ↔ path = p1 ∨ path = p2.
Proof.
  intros H1 H2. unfold glob_match. simpl.
  rewrite !expand_plain by done. simpl. rewrite !wild_plain by done.
  rewrite !orb_false_r, orb_true_iff, !str_eqb_eq. done.
Qed.

(** A literal directory and the slash after it are matched by
    themselves, and what follows starts a segment. *)
Lemma wild_dir (dir p s : jsstring) (seg_start : bool) :
  plain dir = true →
  wild (dir ++ SLASH :: p) (dir ++ SLASH :: s) seg_start = wild p s true.
Proof.
  revert seg_start; induction dir as [|c dir IH]; intros seg_start Hd.
  - done.
  - apply plain_cons in Hd as (Hstar & _ & Hd). simpl.
    by rewrite Hstar, N.eqb_refl, IH.
Qed.

Lemma star_loop_pass (k : jsstring → bool) (name rest : jsstring) :
  no_slash name = true → k rest = true → star_loop k (name ++ rest) = true.
Proof.
  induction name as [|a name IH]; intros Hs Hk.
  - simpl. destruct rest; simpl; by rewrite Hk.
  - simpl in Hs. apply andb_true_iff in Hs as [Ha Hs]. simpl.
    rewrite Ha, IH by done. apply orb_true_r.
Qed.

Lemma wild_star_unfold (p s : jsstring) (seg_start : bool) :
  wild (STAR :: p) s seg_start =
  if seg_start && startsWith s [DOT] then false
  else star_loop (λ s', wild p s' false) s.
Proof. reflexivity. Qed.

(** [*] matches a name that holds no slash and does not start with a
    dot. *)
Lemma wild_star (p name rest : jsstring) :
  name ≠ [] → no_slash name = true → startsWith name [DOT] = false →
  wild p rest false = true →
  wild (STAR :: p) (name ++ rest) true = true.
Proof.
  intros Hne Hs Hdot Hrest. rewrite wild_star_unfold.
  rewrite startsWith_app_long by (destruct name; [done | simpl; lia]).
  rewrite Hdot. simpl. by apply star_loop_pass.
Qed.

End GlobFacts.

(** ** The matchers *)

Section MatcherFacts.

Lemma chr_spec (c : N) (s : jsstring) (caps : gmap nat jsstring) (k : cont) :
  chr c (MState s caps) k =
  match s with
  | a :: r => if N.eqb a c then k (MState r caps) else None
  | [] => None
  end.
Proof. reflexivity. Qed.

(** A literal succeeds exactly on the inputs that start with it, and hands
    what follows it to the continuation. *)
Lemma str_spec (l s : jsstring) (caps : gmap nat jsstring) (k : cont) :
  str l (MState s caps) k =
  if startsWith s l then k (MState (drop (length l) s) caps) else None.
Proof.
  revert s; induction l as [|a l IH]; intros s; simpl.
  - by rewrite drop_0.
  - unfold cat at 1. rewrite chr_spec. destruct s as [|b s]; [done|].
    rewrite (N.eqb_sym b a). destruct (N.eqb a b); [|done].
    fold (str l). by rewrite IH.
Qed.

(** Whatever a lazy run hands over, it has consumed characters of the
    class only. *)
Lemma star_lazy_inv (cls : N → bool) (s : jsstring)
    (caps : gmap nat jsstring) (k : cont) (y : mstate) :
  star_lazy_from cls s caps k = Some y →
  ∃ u v, s = u ++ v ∧ forallb cls u = true ∧ k (MState v caps) = Some y.
Proof.
  revert y; induction s as [|a s IH]; intros y; simpl.
  - destruct (k (MState [] caps)) eqn:Hk; [|done].
    intros [= <-]. by exists [], [].
  - destruct (k (MState (a :: s) caps)) eqn:Hk.
    + intros [= <-]. by exists [], (a :: s).
    + destruct (cls a) eqn:Ha; [|done].
      intros (u & v & -> & Hu & Hv)%IH.
      exists (a :: u), v. simpl. by rewrite Ha, Hu.
Qed.

(** A lazy run stops at the first split the continuation accepts. *)
Lemma star_lazy_first (cls : N → bool) (u v : jsstring)
    (caps : gmap nat jsstring) (k : cont) :
  forallb cls u = true →
  (∀ j, j < length u → k (MState (drop j u ++ v) caps) = None) →
  star_lazy_from cls (u ++ v) caps k =
  match k (MState v caps) with
  | Some y => Some y
  | None => star_lazy_from cls v caps k
  end.
Proof.
  induction u as [|a u IH]; intros Hcls Hnone.
  - simpl. destruct (k (MState v caps)) eqn:Hk; destruct v; simpl;
      by rewrite ?Hk.
  - simpl in Hcls. apply andb_true_iff in Hcls as [Ha Hu].
    assert (H0 := Hnone 0 ltac:(simpl; lia)). simpl in *.
    rewrite H0, Ha.
    apply IH; [done|]. intros j Hj. apply (Hnone (S j)). simpl; lia.
Qed.

(** A lazy run succeeds as soon as the continuation accepts some split
    it can reach. *)
Lemma star_lazy_complete (cls : N → bool) (u v : jsstring)
    (caps : gmap nat jsstring) (k : cont) :
  forallb cls u = true →
  is_Some (k (MState v caps)) →
  is_Some (star_lazy_from cls (u ++ v) caps k).
Proof.
  induction u as [|a u IH]; intros Hcls Hk.
  - destruct Hk as [y Hk]. destruct v; simpl; rewrite Hk; eauto.
  - simpl in Hcls. apply andb_true_iff in Hcls as [Ha Hu]. simpl.
    destruct (k (MState (a :: u ++ v) caps)); [eauto|].
    rewrite Ha. by apply IH.
Qed.

Lemma opt_inv (m : matcher) (x : mstate) (k : cont) (y : mstate) :
  opt m x k = Some y → m x k = Some y ∨ (m x k = None ∧ k x = Some y).
Proof. unfold opt. destruct (m x k); [intros [= <-]; by left | by right]. Qed.

End MatcherFacts.

(** ** The token pattern *)

Section TokenPatternFacts.

Lemma token_match_inv (s : jsstring) (y : mstate) :
    match_at TOKEN_PATTERN s = Some y →
    ∃ body,
      s = TOKEN_START ++ body ++ TOKEN_END ++ ms_rest y ∧
      body ≠ [] ∧ forallb dot body = true ∧
      ms_caps y !! 1 = Some body ∧
      (ms_caps y !! 2 = None ∨
       ∃ n p, n ≠ [] ∧ p ≠ [] ∧ body = n ++ PIPE :: p ∧ ms_caps y !! 2 = Some p).
Proof.
  unfold match_at, TOKEN_PATTERN. unfold cat at 1. rewrite str_spec.
  destruct (startsWith s TOKEN_START) eqn:Hstart; [|done].
  apply startsWith_split in Hstart. 
  generalize dependent (drop (length TOKEN_START) s). intros r -> .
  unfold cat at 1. unfold group at 1. unfold cat at 1. unfold plus_lazy at 1.
  cbn [ms_rest ms_caps].
  destruct r as [|a r]; [done|]. destruct (dot a) eqn:Ha; [|done].
  intros (u & v & -> & Hu & Hk)%star_lazy_inv.
  apply opt_inv in Hk as [Hk|[_ Hk]].
  - unfold cat at 1 in Hk. rewrite chr_spec in Hk.
    destruct v as [|b v]; [done|].
    destruct (N.eqb_spec b PIPE) as [->|]; [|done].
    unfold group at 1, plus_lazy at 1 in Hk. cbn [ms_rest ms_caps] in Hk.
    destruct v as [|c w]; [done|]. destruct (dot c) eqn:Hc; [|done].
    apply star_lazy_inv in Hk as (u' & v' & -> & Hu' & Hk).
    cbn [ms_rest ms_caps] in Hk.
    rewrite str_spec in Hk. destruct (startsWith v' TOKEN_END) eqn:Hend; [|done].
    apply startsWith_split in Hend. apply (inj Some) in Hk. subst y.
    rewrite (take_consumed _ (a :: u ++ PIPE :: c :: u') v')
      by (by rewrite <- !app_comm_cons, <- app_assoc, <- app_comm_cons).
    rewrite (take_consumed _ (c :: u') v') by done.
    exists (a :: u ++ PIPE :: c :: u'). cbn [ms_rest ms_caps].
    rewrite <- Hend. split_and!.
    + by rewrite <- !app_comm_cons, <- app_assoc, <- app_comm_cons.
    + done.
    + simpl. rewrite Ha. simpl. rewrite forallb_app. simpl. by rewrite Hu, Hc, Hu'.
    + by rewrite lookup_insert_eq.
    + right. exists (a :: u), (c :: u'). by split_and!.
  - cbn [ms_rest ms_caps] in Hk. 
    rewrite str_spec in Hk. destruct (startsWith v TOKEN_END) eqn:Hend; [|done].
    apply startsWith_split in Hend. apply (inj Some) in Hk. subst y.
    rewrite (take_consumed _ (a :: u) v) by done.
    exists (a :: u). cbn [ms_rest ms_caps]. rewrite <- Hend. split_and!.
    + done.
    + done.
    + simpl. by rewrite Ha, Hu.
    + by rewrite lookup_insert_eq.
    + left. rewrite lookup_insert_ne by done. apply lookup_empty.
Qed.

Lemma token_match_start (s : jsstring) :
  match_at TOKEN_PATTERN s =
  if startsWith s TOKEN_START then
    let r := drop (length TOKEN_START) s in
    plus_lazy dot (MState r ∅)
      (λ y1, opt (cat (chr PIPE) (group 2 (plus_lazy dot))) y1
         (λ y, str TOKEN_END
                 (MState (ms_rest y)
                    (<[1 := take (length r - length (ms_rest y)) r]> (ms_caps y)))
                 Some))
  else None.
Proof.
  unfold match_at, TOKEN_PATTERN. unfold cat at 1. rewrite str_spec.
  destruct (startsWith s TOKEN_START); reflexivity.
Qed.

Lemma token_match_no_start (s : jsstring) :
  startsWith s TOKEN_START = false → match_at TOKEN_PATTERN s = None.
Proof. intros H. by rewrite token_match_start, H. Qed.

Lemma forallb_drop_head (f : N → bool) (t : jsstring) (j : nat) :
  forallb f t = true → j < length t →
  ∃ c r, drop j t = c :: r ∧ f c = true.
Proof.
  revert j; induction t as [|a t IH]; intros j Hf Hj; simpl in *; [lia|].
  apply andb_true_iff in Hf as [Ha Ht].
  destruct j as [|j]; [by exists a, t|].
  apply IH; [done | lia].
Qed.

Lemma closes_early_false (a : N) (t post : jsstring) (j : nat) :
  closes_early (a :: t) = false → j < length t →
  startsWith (drop j t ++ TOKEN_END ++ post) TOKEN_END = false.
Proof.
  unfold closes_early. intros Hce Hj.
  apply not_true_iff_false. intros Hs. apply not_true_iff_false in Hce.
  apply Hce. apply existsb_exists. exists (S j). split.
  - apply in_seq. simpl. lia.
  - simpl. rewrite drop_app_le by lia.
    rewrite app_assoc in Hs. rewrite startsWith_app_long in Hs; [done|].
    rewrite length_app, length_drop. 
    assert (length TOKEN_END = 5) by reflexivity. lia.
Qed.

Lemma opt_pipe_skip (m : matcher) (s : jsstring) (caps : gmap nat jsstring)
    (k : cont) :
  startsWith s [PIPE] = false →
  opt (cat (chr PIPE) m) (MState s caps) k = k (MState s caps).
Proof.
  intros Hs. unfold opt, cat. rewrite chr_spec.
  destruct s as [|c r]; [done|]. cbn [startsWith] in Hs.
  rewrite (N.eqb_sym c PIPE). by destruct (N.eqb PIPE c).
Qed.

Lemma no_pipe_drop (t rest : jsstring) (j : nat) :
  no_pipe t = true → j < length t →
  startsWith (drop j t ++ rest) [PIPE] = false.
Proof.
  intros Hp Hj. destruct (forallb_drop_head _ _ _ Hp Hj) as (c & r & -> & Hc).
  rewrite <- app_comm_cons. cbn [startsWith].
  rewrite (N.eqb_sym PIPE c). by destruct (N.eqb c PIPE).
Qed.

Lemma token_end_no_pipe (post : jsstring) :
  startsWith (TOKEN_END ++ post) [PIPE] = false.
Proof. reflexivity. Qed.

Lemma well_formed_inner_inv (t : jsstring) :
  well_formed_inner t = true →
  ∃ a t', t = a :: t' ∧ dot a = true ∧ forallb dot t' = true ∧
          closes_early (a :: t') = false.
Proof.
  unfold well_formed_inner. intros [[Hne Hdot]%andb_true_iff Hce]%andb_true_iff.
  destruct t as [|a t']; [done|]. simpl in Hdot.
  apply andb_true_iff in Hdot as [Ha Ht]. apply negb_true_iff in Hce.
  by exists a, t'.
Qed.

Lemma token_match_plain (name post : jsstring) :
  well_formed_inner name = true → no_pipe (tail name) = true →
  match_at TOKEN_PATTERN (marker name ++ post) =
  Some (MState post (<[1 := name]> ∅)).
Proof.
  intros (a & t & -> & Ha & Ht & Hce)%well_formed_inner_inv Hpipe.
  simpl tail in Hpipe.
  rewrite token_match_start. unfold marker. rewrite <- !app_assoc.
  rewrite startsWith_app, drop_app_length. cbn zeta.
  rewrite <- !app_comm_cons. unfold plus_lazy. cbn [ms_rest ms_caps].
  rewrite Ha. rewrite star_lazy_first; [|done|].
  - rewrite opt_pipe_skip by apply token_end_no_pipe.
    cbn [ms_rest ms_caps]. rewrite str_spec, startsWith_app, drop_app_length.
    by rewrite (take_consumed _ (a :: t) (TOKEN_END ++ post)).
  - intros j Hj. rewrite opt_pipe_skip by by apply no_pipe_drop.
    cbn [ms_rest ms_caps]. rewrite str_spec.
    by rewrite (closes_early_false a).
Qed.

Lemma token_match_complete (inner post : jsstring) :
  inner ≠ [] → forallb dot inner = true →
  is_Some (match_at TOKEN_PATTERN (marker inner ++ post)).
Proof.
  intros Hne Hdot. destruct inner as [|a t]; [done|]. simpl in Hdot.
  apply andb_true_iff in Hdot as [Ha Ht].
  rewrite token_match_start. unfold marker. rewrite <- !app_assoc.
  rewrite startsWith_app, drop_app_length. cbn zeta.
  rewrite <- !app_comm_cons. unfold plus_lazy. cbn [ms_rest ms_caps].
  rewrite Ha. apply star_lazy_complete; [done|].
  rewrite opt_pipe_skip by apply token_end_no_pipe.
  cbn [ms_rest ms_caps]. rewrite str_spec, startsWith_app. eauto.
Qed.

Lemma token_match_piped (name path post : jsstring) :
  name ≠ [] → path ≠ [] →
  well_formed_inner (name ++ PIPE :: path) = true →
  no_pipe (tail name) = true →
  match_at TOKEN_PATTERN (marker (name ++ PIPE :: path) ++ post) =
  Some (MState post (<[1 := name ++ PIPE :: path]> (<[2 := path]> ∅))).
Proof.
  intros Hname Hpath (a & t' & Heq & Ha & Ht' & Hce)%well_formed_inner_inv Hpipe.
  destruct name as [|a0 t]; [done|]. rename a into a1. destruct path as [|b q]; [done|].
  rewrite <- app_comm_cons in Heq. injection Heq as <- <-. rename a0 into a.
  simpl tail in Hpipe.
  rewrite forallb_app in Ht'. apply andb_true_iff in Ht' as [Ht Hq].
  cbn [forallb] in Hq. apply andb_true_iff in Hq as [_ Hq].
  apply andb_true_iff in Hq as [Hb Hq].
  rewrite token_match_start. unfold marker. rewrite <- !app_assoc.
  rewrite startsWith_app, drop_app_length. cbn zeta.
  rewrite <- !app_comm_cons. unfold plus_lazy at 1. cbn [ms_rest ms_caps].
  rewrite Ha.
  rewrite star_lazy_first; [|done|].
  - unfold opt, cat at 1. rewrite chr_spec, N.eqb_refl.
    unfold group at 1, plus_lazy. cbn [ms_rest ms_caps]. rewrite Hb.
    rewrite star_lazy_first; [|done|].
    + cbn [ms_rest ms_caps]. rewrite str_spec, startsWith_app, drop_app_length.
      rewrite (take_consumed _ (a :: t ++ PIPE :: b :: q) (TOKEN_END ++ post))
        by (by rewrite <- !app_comm_cons, <- app_assoc, <- !app_comm_cons).
      by rewrite (take_consumed _ (b :: q) (TOKEN_END ++ post)).
    + intros j Hj. cbn [ms_rest ms_caps]. rewrite str_spec.
      assert (Hd : drop (length t + 2 + j) (t ++ PIPE :: b :: q) = drop j q).
      { rewrite drop_app_ge by lia.
        replace (length t + 2 + j - length t) with (S (S j)) by lia. done. }
      rewrite <- Hd. rewrite (closes_early_false a); [done|done|].
      rewrite length_app. simpl. lia.
  - intros j Hj. rewrite opt_pipe_skip by by apply no_pipe_drop.
    cbn [ms_rest ms_caps]. rewrite str_spec.
    assert (Hd : drop j (t ++ PIPE :: b :: q) = drop j t ++ PIPE :: b :: q)
      by (apply drop_app_le; lia).
    pose proof (closes_early_false a _ post j Hce) as Hc.
    rewrite Hd, <- app_assoc, <- !app_comm_cons in Hc. rewrite Hc; [done|].
    rewrite length_app. lia.
Qed.

End TokenPatternFacts.

(** ** Scanning for matches *)

Section MatchAllFacts.
Variable m : matcher.

Lemma matchAll_from_0_cons (idx : nat) (c : N) (s : jsstring) :
  matchAll_from m 0 idx (c :: s) =
  match match_at m (c :: s) with
  | Some y =>
      let len := length (c :: s) - length (ms_rest y) in
      Match idx (take len (c :: s)) (ms_caps y) ::
      matchAll_from m (len - 1) (S idx) s
  | None => matchAll_from m 0 (S idx) s
  end.
Proof. reflexivity. Qed.

(** Passing over [u] to reach [lastIndex]. *)
Lemma matchAll_from_skip (u v : jsstring) (idx : nat) :
  matchAll_from m (length u) idx (u ++ v) =
  matchAll_from m 0 (idx + length u) v.
Proof.
  revert idx; induction u as [|a u IH]; intros idx.
  - simpl. by rewrite Nat.add_0_r.
  - simpl. rewrite IH. f_equal. lia.
Qed.

(** A match at the head is reported, and the scan resumes after it. *)
Lemma matchAll_from_hit (s w : jsstring) (y : mstate) (idx : nat) :
  match_at m s = Some y → s = w ++ ms_rest y → w ≠ [] →
  matchAll_from m 0 idx s =
  Match idx w (ms_caps y) :: matchAll_from m 0 (idx + length w) (ms_rest y).
Proof.
  intros Hm Hs Hw. destruct w as [|c w]; [done|].
  rewrite Hs at 1. rewrite <- app_comm_cons, matchAll_from_0_cons.
  rewrite app_comm_cons, <- Hs, Hm. cbn zeta.
  rewrite (take_consumed s (c :: w) (ms_rest y) Hs).
  f_equal. rewrite Hs at 1. rewrite length_app.
  replace (length (c :: w) + length (ms_rest y) - length (ms_rest y) - 1)
    with (length w) by (simpl; lia).
  rewrite matchAll_from_skip. f_equal. simpl. lia.
Qed.

(** Positions without a match are passed over. *)
Lemma matchAll_from_miss (pre s : jsstring) (idx : nat) :
  (∀ j, j < length pre → match_at m (drop j pre ++ s) = None) →
  matchAll_from m 0 idx (pre ++ s) = matchAll_from m 0 (idx + length pre) s.
Proof.
  revert idx; induction pre as [|a pre IH]; intros idx Hnone.
  - simpl. by rewrite Nat.add_0_r.
  - rewrite <- app_comm_cons, matchAll_from_0_cons, app_comm_cons.
    assert (H0 := Hnone 0 ltac:(simpl; lia)). rewrite drop_0 in H0.
    rewrite H0, IH.
    + f_equal. simpl. lia.
    + intros j Hj. apply (Hnone (S j)). simpl. lia.
Qed.

Lemma matchAll_from_nil (s : jsstring) (skip idx : nat) :
  (∀ j, match_at m (drop j s) = None) → matchAll_from m skip idx s = [].
Proof.
  revert skip idx; induction s as [|a s IH]; intros skip idx Hnone;
    assert (H0 := Hnone 0); rewrite drop_0 in H0.
  - destruct skip; simpl; [|done]. by rewrite H0.
  - destruct skip as [|k].
    + rewrite matchAll_from_0_cons, H0. apply IH.
      intros j. apply (Hnone (S j)).
    + simpl. apply IH. intros j. apply (Hnone (S j)).
Qed.

Lemma matchAll_from_found (s : jsstring) (idx j : nat) :
  is_Some (match_at m (drop j s)) → matchAll_from m 0 idx s ≠ [].
Proof.
  revert s idx; induction j as [|j IH]; intros s idx Hsome.
  - rewrite drop_0 in Hsome. destruct Hsome as [y Hy].
    destruct s; simpl; by rewrite Hy.
  - destruct s as [|a s].
    + simpl in *. destruct (match_at m []); [done | by destruct Hsome].
    + rewrite matchAll_from_0_cons. destruct (match_at m (a :: s)); [done|].
      by apply IH.
Qed.

(** The indices apart, a scan does not depend on where it starts
    counting. *)
Lemma matchAll_from_groups (s : jsstring) (skip i j : nat) :
  map m_groups (matchAll_from m skip i s) =
  map m_groups (matchAll_from m skip j s).
Proof.
  revert skip i j; induction s as [|a s IH]; intros skip i j.
  - destruct skip; simpl; [|done]. by destruct (match_at m []).
  - destruct skip as [|k]; [|simpl; apply IH].
    rewrite !matchAll_from_0_cons. destruct (match_at m (a :: s)).
    + cbn zeta. rewrite !map_cons. f_equal. apply IH.
    + apply IH.
Qed.

End MatchAllFacts.

Section TextualOrder.
Variable m : matcher.

Lemma matchAll_from_elem (s : jsstring) (skip idx : nat) (x : js_match) :
  x ∈ matchAll_from m skip idx s →
  ∃ j y, match_at m (drop j s) = Some y ∧ m_groups x = ms_caps y ∧
         idx + skip ≤ m_index x ∧ m_index x = idx + j.
Proof.
  revert skip idx; induction s as [|a s IH]; intros skip idx.
  - destruct skip; simpl; [|by intros ?%elem_of_nil].
    destruct (match_at m []) as [y|] eqn:Hy; [|by intros ?%elem_of_nil].
    intros ->%list_elem_of_singleton. exists 0, y. simpl. split_and!; try done; lia.
  - destruct skip as [|k].
    + rewrite matchAll_from_0_cons.
      destruct (match_at m (a :: s)) as [y|] eqn:Hy.
      * cbn zeta. intros [->|Hx]%elem_of_cons.
        -- exists 0, y. simpl. split_and!; try done; lia.
        -- apply IH in Hx as (j & y' & Hy' & Hg & Hlb & Hidx).
           exists (S j), y'. simpl. split_and!; try done; lia.
      * intros (j & y' & Hy' & Hg & Hlb & Hidx)%IH.
        exists (S j), y'. simpl. split_and!; try done; lia.
    + simpl. intros (j & y' & Hy' & Hg & Hlb & Hidx)%IH.
      exists (S j), y'. simpl. split_and!; try done; lia.
Qed.

(** Matches are reported in the order of the text. *)
Lemma matchAll_from_sorted (s : jsstring) (skip idx : nat) :
  StronglySorted lt (map m_index (matchAll_from m skip idx s)).
Proof.
  revert skip idx; induction s as [|a s IH]; intros skip idx.
  - destruct skip; simpl; [|constructor].
    destruct (match_at m []); repeat constructor.
  - destruct skip as [|k]; [|apply IH].
    rewrite matchAll_from_0_cons. destruct (match_at m (a :: s)); [|apply IH].
    cbn zeta. rewrite map_cons. constructor; [apply IH|].
    apply Forall_forall. intros i (x & <- & Hx)%list_elem_of_In%in_map_iff.
    apply list_elem_of_In, matchAll_from_elem in Hx as (_ & _ & _ & _ & Hlb & _).
    simpl. lia.
Qed.

End TextualOrder.

Section ExtractFacts.

Lemma token_of_match_groups (l1 l2 : list js_match) :
  map m_groups l1 = map m_groups l2 →
  map token_of_match l1 = map token_of_match l2.
Proof.
  revert l2; induction l1 as [|x l1 IH]; intros [|y l2]; simpl; try done.
  intros [= Hxy Hl]. f_equal; [|by apply IH].
  unfold token_of_match. by rewrite Hxy.
Qed.

Lemma extract_tokens_from (idx : nat) (s : jsstring) :
  map token_of_match (matchAll_from TOKEN_PATTERN 0 idx s) = extract_tokens s.
Proof. apply token_of_match_groups, matchAll_from_groups. Qed.

Lemma token_start_head_once : 60%N ∉ tail TOKEN_START.
Proof. apply (bool_decide_unpack _). by vm_compute. Qed.

(** The opening of a marker does not overlap itself: it is found across
    the end of [d] and a following opening only when it is found in [d]. *)
Lemma token_start_straddle (d rest : jsstring) :
  d ≠ [] →
  startsWith (d ++ TOKEN_START ++ rest) TOKEN_START = true →
  startsWith d TOKEN_START = true.
Proof.
  intros Hd Hs. destruct (decide (length TOKEN_START ≤ length d)) as [Hle|Hgt].
  - by rewrite startsWith_app_long in Hs.
  - exfalso. apply startsWith_prefix in Hs.
    assert (Hlt : length d < length TOKEN_START) by lia.
    apply lookup_lt_is_Some in Hlt as [c Hc].
    pose proof (prefix_lookup_Some _ _ _ _ Hc Hs) as Hc'.
    rewrite lookup_app_r in Hc' by lia. rewrite Nat.sub_diag in Hc'.
    assert (c = 60%N) as -> by (by injection Hc').
    apply token_start_head_once.
    destruct d as [|a d]; [done|].
    apply (list_elem_of_lookup_2 _ (length d)).
    by change TOKEN_START with (60%N :: tail TOKEN_START) in Hc.
Qed.

Lemma occurs_drop (p s : jsstring) (j : nat) :
  startsWith (drop j s) p = true → occurs p s.
Proof.
  intros Hs%startsWith_split. exists (take j s), (drop (length p) (drop j s)).
  by rewrite <- Hs, take_drop.
Qed.

(** Before the first opening of a marker, no match starts. *)
Lemma token_match_before (pre rest : jsstring) (j : nat) :
  ¬ occurs TOKEN_START pre → j < length pre →
  match_at TOKEN_PATTERN (drop j pre ++ TOKEN_START ++ rest) = None.
Proof.
  intros Hocc Hj. apply token_match_no_start.
  apply not_true_iff_false. intros Hs. apply Hocc, (occurs_drop _ _ j).
  apply (token_start_straddle _ rest); [|done].
  intros Hnil%(f_equal length). rewrite length_drop in Hnil. simpl in Hnil. lia.
Qed.

(** The token a match yields. *)
Lemma extract_tokens_at (pre inner post : jsstring) (y : mstate) :
  ¬ occurs TOKEN_START pre →
  match_at TOKEN_PATTERN (marker inner ++ post) = Some y →
  ms_rest y = post →
  extract_tokens (pre ++ marker inner ++ post) =
  (ms_caps y !!! 1, default DEFAULT_PATH (ms_caps y !! 2))
  :: extract_tokens post.
Proof.
  intros Hocc Hy Hrest. unfold extract_tokens at 1, matchAll.
  rewrite matchAll_from_miss.
  - rewrite (matchAll_from_hit _ _ (marker inner) y _ Hy).
    + rewrite map_cons, Hrest, extract_tokens_from. done.
    + by rewrite Hrest.
    + unfold marker. intros Hnil%(f_equal length). by rewrite length_app in Hnil.
  - intros j Hj. unfold marker. rewrite <- !app_assoc.
    by apply token_match_before.
Qed.

(** A marker without a path yields its name and the default path. *)
Lemma extract_tokens_plain (pre name post : jsstring) :
  ¬ occurs TOKEN_START pre →
  well_formed_inner name = true → no_pipe (tail name) = true →
  extract_tokens (pre ++ marker name ++ post) =
  (name, DEFAULT_PATH) :: extract_tokens post.
Proof.
  intros Hocc Hwf Hpipe.
  rewrite (extract_tokens_at _ _ _ _ Hocc (token_match_plain _ post Hwf Hpipe));
    [|done].
  cbn [ms_caps]. rewrite lookup_total_insert_eq.
  rewrite lookup_insert_ne by done. by rewrite lookup_empty.
Qed.

(** A marker with a path yields the whole of its text as the identifier,
    and the path. *)
Lemma extract_tokens_piped (pre name path post : jsstring) :
  ¬ occurs TOKEN_START pre →
  name ≠ [] → path ≠ [] →
  well_formed_inner (name ++ PIPE :: path) = true →
  no_pipe (tail name) = true →
  extract_tokens (pre ++ marker (name ++ PIPE :: path) ++ post) =
  (name ++ PIPE :: path, path) :: extract_tokens post.
Proof.
  intros Hocc Hn Hp Hwf Hpipe.
  rewrite (extract_tokens_at _ _ _ _ Hocc
             (token_match_piped _ _ post Hn Hp Hwf Hpipe)); [|done].
  cbn [ms_caps]. rewrite lookup_total_insert_eq.
  rewrite lookup_insert_ne by done. by rewrite lookup_insert_eq.
Qed.

(** Tokens are found exactly in the contents that hold a marker. *)
Lemma extract_tokens_nil_iff (content : jsstring) :
  extract_tokens content = [] ↔ ¬ has_marker content.
Proof.
  split.
  - intros Hnil (before & inner & after & -> & Hne & Hdot).
    assert (Hm : matchAll TOKEN_PATTERN (before ++ marker inner ++ after) ≠ []).
    { apply (matchAll_from_found _ _ _ (length before)).
      rewrite drop_app_length. by apply token_match_complete. }
    unfold extract_tokens in Hnil. by destruct (matchAll _ _).
  - intros Hno. unfold extract_tokens, matchAll.
    rewrite matchAll_from_nil; [done|]. intros j.
    destruct (match_at TOKEN_PATTERN (drop j content)) as [y|] eqn:Hy; [|done].
    exfalso. apply Hno.
    apply token_match_inv in Hy as (body & Hs & Hne & Hdot & _).
    exists (take j content), body, (ms_rest y). split; [|done].
    unfold marker. rewrite <- !app_assoc, <- Hs. by rewrite take_drop.
Qed.

(** Group 1 takes part in every match. *)
Lemma token_group1_defined (s : jsstring) (y : mstate) :
  match_at TOKEN_PATTERN s = Some y → is_Some (ms_caps y !! 1).
Proof. intros (body & _ & _ & _ & H1 & _)%token_match_inv. eauto. Qed.

End ExtractFacts.

(** ** Programs and their runs *)

Section RunFacts.

Lemma run_bind {A B : Type} (w : env) (p : prog A) (f : A → prog B)
    (tr : list event) :
  run w tr (bind p f) =
  match run w tr p with
  | (tr', Returned a) => run w tr' (f a)
  | (tr', Threw e) => (tr', Threw e)
  end.
Proof.
  revert tr; induction p as [a|e|X ev k IH]; intros tr; simpl; auto.
Qed.

Lemma run_try_catch {A : Type} (w : env) (p : prog A)
    (h : js_error → prog A) (tr : list event) :
  run w tr (try_catch p h) =
  match run w tr p with
  | (tr', Returned a) => (tr', Returned a)
  | (tr', Threw e) => run w tr' (h e)
  end.
Proof.
  revert tr; induction p as [a|e|X ev k IH]; intros tr; simpl; auto.
Qed.

Lemma spawned_step (i : invocation) (p : nat) (r : settled unit)
    (evs : list event) :
  spawned (EvExeca i p :: EvAwait p r :: evs) = i :: spawned evs.
Proof. reflexivity. Qed.

Lemma awaited_step (i : invocation) (p : nat) (r : settled unit)
    (evs : list event) :
  awaited (EvExeca i p :: EvAwait p r :: evs) = r :: awaited evs.
Proof. reflexivity. Qed.

Lemma pushed_step (i : invocation) (p : nat) (r : settled unit)
    (evs : list event) :
  pushed (EvExeca i p :: EvAwait p r :: evs) = pushed evs.
Proof. reflexivity. Qed.

Lemma in_sequence_spawned (invs : list invocation) (evs : list event) :
  in_sequence invs evs →
  spawned evs = invs ∧ length (awaited evs) = length invs ∧
  length evs = 2 * length invs ∧ pushed evs = [].
Proof.
  induction 1 as [|i promise r invs evs Hr Hseq (IH1 & IH2 & IH3 & IH4)];
    [done|].
  rewrite spawned_step, awaited_step, pushed_step, IH1, IH4.
  split_and!; try done; simpl; lia.
Qed.

End RunFacts.

Section ListenerFacts.
Variables __dirname cwd : jsstring.

(** One turn of the loop of the listener. *)
Lemma on_data_cons (w : env) (file : jsstring) (tp : WPReadmeFileTokens)
    (tokens : list WPReadmeFileTokens) (tr : list event) :
  run w tr (on_data __dirname cwd (file, tp :: tokens)) =
  let promise := w _ tr (Execa (docgen_invocation __dirname cwd file tp)) in
  let tr1 := tr ++ [EvExeca (docgen_invocation __dirname cwd file tp) promise] in
  let r := w _ tr1 (Await promise) in
  let tr2 := tr1 ++ [EvAwait promise r] in
  match r with
  | Fulfilled _ => run w tr2 (on_data __dirname cwd (file, tokens))
  | Rejected e => (tr2, Threw e)
  end.
Proof.
  unfold on_data. cbn [for_of]. rewrite run_bind. cbn.
  destruct (w _ _ (Await _)); reflexivity.
Qed.

Lemma on_data_nil (w : env) (file : jsstring) (tr : list event) :
  run w tr (on_data __dirname cwd (file, [])) = (tr, Returned tt).
Proof. reflexivity. Qed.

(** The runs of the listener. *)
Lemma on_data_run (w : env) (file : jsstring)
    (tokens : list WPReadmeFileTokens) (tr : list event) :
  ∃ n evs out,
    run w tr (on_data __dirname cwd (file, tokens)) = (tr ++ evs, out) ∧
    n ≤ length tokens ∧
    in_sequence (map (docgen_invocation __dirname cwd file) (take n tokens)) evs ∧
    match out with
    | Returned _ =>
        n = length tokens ∧ ∀ r, r ∈ awaited evs → r = Fulfilled tt
    | Threw e =>
        ∃ k, n = S k ∧ awaited evs !! k = Some (Rejected e) ∧
             ∀ j, j < k → awaited evs !! j = Some (Fulfilled tt)
    end.
Proof.
  revert tr; induction tokens as [|tp tokens IH]; intros tr.
  - exists 0, [], (Returned tt). rewrite on_data_nil, app_nil_r.
    split_and!; try done; [constructor|].
    intros r Hr. by apply elem_of_nil in Hr.
  - rewrite on_data_cons. cbn zeta.
    set (promise := w _ tr (Execa (docgen_invocation __dirname cwd file tp))).
    set (tr1 := tr ++ [EvExeca (docgen_invocation __dirname cwd file tp) promise]).
    destruct (w _ tr1 (Await promise)) as [[]|e] eqn:Hr.
    + destruct (IH (tr1 ++ [EvAwait promise (Fulfilled tt)]))
        as (n & evs & out & Hrun & Hn & Hseq & Hout).
      exists (S n), (EvExeca (docgen_invocation __dirname cwd file tp) promise
                     :: EvAwait promise (Fulfilled tt) :: evs), out.
      split_and!.
      * rewrite Hrun. unfold tr1. by rewrite <- !app_assoc.
      * simpl. lia.
      * simpl. by constructor.
      * destruct out as [u|e].
        -- destruct Hout as [-> Hall]. split; [done|].
           intros r Hr'. rewrite awaited_step in Hr'.
           apply elem_of_cons in Hr' as [->|Hr']; [done|]. by apply Hall.
        -- destruct Hout as (k & -> & Hk & Hlt). exists (S k).
           split_and!; [done|done|]. intros [|j] Hj; [done|].
           apply Hlt. lia.
    + exists 1,
        [EvExeca (docgen_invocation __dirname cwd file tp) promise;
         EvAwait promise (Rejected e)],
        (Threw e).
      split_and!.
      * unfold tr1. by rewrite <- !app_assoc.
      * simpl. lia.
      * simpl. constructor; [done | constructor].
      * exists 0. split_and!; [done|done|]. intros j Hj. lia.
Qed.

(** The same, for a given run. *)
Lemma on_data_run_from (w : env) (file : jsstring)
    (tokens : list WPReadmeFileTokens) (tr tr' : list event)
    (out : outcome unit) :
  run w tr (on_data __dirname cwd (file, tokens)) = (tr', out) →
  ∃ n evs,
    tr' = tr ++ evs ∧ drop (length tr) tr' = evs ∧
    n ≤ length tokens ∧
    in_sequence (map (docgen_invocation __dirname cwd file) (take n tokens)) evs ∧
    match out with
    | Returned _ =>
        n = length tokens ∧ ∀ r, r ∈ awaited evs → r = Fulfilled tt
    | Threw e =>
        ∃ k, n = S k ∧ awaited evs !! k = Some (Rejected e) ∧
             ∀ j, j < k → awaited evs !! j = Some (Fulfilled tt)
    end.
Proof.
  intros Hrun.
  destruct (on_data_run w file tokens tr)
    as (n & evs & out' & Hrun' & Hn & Hseq & Hout).
  rewrite Hrun in Hrun'. injection Hrun' as -> ->.
  exists n, evs. by rewrite drop_app_length.
Qed.

End ListenerFacts.

Section TransformFacts.

Local Arguments extract_tokens : simpl never.

Lemma filterTokenTransform_run (w : env) (tr : list event) (file : jsstring) :
  run w tr (filterTokenTransform file) =
  let r := w _ tr (ReadFile file (lit "utf8")) in
  let tr1 := tr ++ [EvReadFile file (lit "utf8") r] in
  match r with
  | Fulfilled (c :: content) =>
      match extract_tokens (c :: content) with
      | [] => (tr1 ++ [EvCallback None], Returned tt)
      | tokens => (tr1 ++ [EvPush (file, tokens); EvCallback None], Returned tt)
      end
  | _ => (tr1 ++ [EvCallback None], Returned tt)
  end.
Proof.
  unfold filterTokenTransform. unfold mbind, prog_bind, mret, prog_ret.
  rewrite run_bind, run_try_catch. cbn [run bind await].
  destruct (w _ tr (ReadFile file (lit "utf8"))) as [[|c content]|e];
    cbn [run bind truthy default perform record]; unfold id; try done.
  - by destruct (w _ _ (Callback None)).
  - destruct (extract_tokens (c :: content)) as [|t ts];
      cbn [run bind perform record].
    + by destruct (w _ _ (Callback None)).
    + rewrite <- app_assoc. by destruct (w _ _ (Callback None)).
  - by destruct (w _ _ (Callback None)).
Qed.

End TransformFacts.

(** * Names of packages and of documentation files *)

Section NamingFacts.

Lemma replace_prefix_app (p r : jsstring) : replace_prefix p (p ++ r) = r.
Proof. unfold replace_prefix. by rewrite startsWith_app, drop_app_length. Qed.

Lemma getDataDocumentationFile_spec (packageName : jsstring) :
  getDataDocumentationFile packageName =
  if str_eqb packageName (lit "core-data") then lit "data-core.md"
  else lit "data-core-" ++ packageName ++ lit ".md".
Proof.
  unfold getDataDocumentationFile, getPackageStoreName.
  by destruct (str_eqb packageName (lit "core-data")).
Qed.

Lemma getDataDocumentationFilePackage_conventional (packageName : jsstring) :
  getDataDocumentationFilePackage (lit "data-core-" ++ packageName) =
  if str_eqb packageName (lit "core") then lit "core-data" else packageName.
Proof.
  unfold getDataDocumentationFilePackage.
  change (lit "data-core-" ++ packageName)
    with (lit "data-" ++ lit "core-" ++ packageName).
  rewrite !replace_prefix_app.
  destruct (str_eqb packageName (lit "core")) eqn:Hcore; [|done].
  by apply str_eqb_eq in Hcore as ->.
Qed.

End NamingFacts.

Section NamingClaims.

(** C2 (amended).  Deriving the package name from the documentation file
    name, extension removed, undoes deriving the file name from the
    package name for the pairs of the convention, [core-data] with
    [data-core.md] and [foo] with [data-core-foo.md], and for every
    package name without a slash other than [core]. *)
Theorem package_name_inverts_file_name :
  (getDataDocumentationFile (lit "core-data") = lit "data-core.md" ∧
   getDataDocumentationFilePackage
     (basename (lit "data-core.md") (lit ".md")) = lit "core-data") ∧
  (getDataDocumentationFile (lit "foo") = lit "data-core-foo.md" ∧
   getDataDocumentationFilePackage
     (basename (lit "data-core-foo.md") (lit ".md")) = lit "foo") ∧
  (∀ packageName : jsstring,
     packageName ≠ lit "core" → no_slash packageName = true →
     getDataDocumentationFilePackage
       (basename (getDataDocumentationFile packageName) (lit ".md"))
     = packageName).
Proof.
  split_and!; try by vm_compute.
  intros packageName Hcore Hslash. rewrite getDataDocumentationFile_spec.
  destruct (str_eqb packageName (lit "core-data")) eqn:Hcd.
  - apply str_eqb_eq in Hcd as ->. by vm_compute.
  - rewrite app_assoc, basename_md.
    + rewrite getDataDocumentationFilePackage_conventional.
      by rewrite str_eqb_neq.
    + done.
    + unfold no_slash in *. by rewrite forallb_app, Hslash.
Qed.

End NamingClaims.

(** * The patterns of discovery *)

Section PatternClaims.
Variables __dirname cwd : jsstring.

Lemma set_to_array_seen (x : jsstring) (xs : list jsstring) :
  (∀ y, y ∈ xs → y = x) → set_to_array [x] xs = [].
Proof.
  induction xs as [|y xs IH]; intros Hall; [done|]. simpl.
  rewrite (Hall y) by (apply elem_of_cons; by left).
  rewrite bool_decide_eq_true_2 by (apply elem_of_cons; by left).
  apply IH. intros z Hz. apply Hall. apply elem_of_cons; by right.
Qed.

Lemma set_to_array_single (x : jsstring) (xs : list jsstring) :
  xs ≠ [] → (∀ y, y ∈ xs → y = x) → set_to_array [] xs = [x].
Proof.
  destruct xs as [|y xs]; [done|]. intros _ Hall. simpl.
  rewrite (Hall y) by (apply elem_of_cons; by left).
  f_equal. apply set_to_array_seen.
  intros z Hz. apply Hall. apply elem_of_cons; by right.
Qed.

Lemma packages_of_one (files : list jsstring) (foo : jsstring) :
  files ≠ [] →
  (∀ f, f ∈ files → getFilePackage __dirname cwd f = foo) →
  set_to_array [] (map (getFilePackage __dirname cwd) files) = [foo].
Proof.
  intros Hne Hall. apply set_to_array_single.
  - by destruct files.
  - intros y Hy. apply list_elem_of_In, in_map_iff in Hy as (f & <- & Hf).
    by apply Hall, list_elem_of_In.
Qed.

(** The patterns computed from files of one package name that package
    only. *)
Lemma glob_patterns_one (files : list jsstring) (foo : jsstring) :
  files ≠ [] →
  (∀ f, f ∈ files → getFilePackage __dirname cwd f = foo) →
  glob_patterns __dirname cwd files =
  [ PACKAGES_DIR __dirname cwd ++ lit "/" ++ foo ++ lit "/README.md";
    DATA_DOCS_DIR __dirname cwd ++ lit "/" ++ getDataDocumentationFile foo ].
Proof.
  intros Hne Hall. unfold glob_patterns, getPackagePattern,
    getDataDocumentationPattern.
  destruct files as [|f files]; [done|].
  by rewrite (packages_of_one _ foo Hne Hall).
Qed.

Lemma glob_patterns_all :
  glob_patterns __dirname cwd [] =
  [ PACKAGES_DIR __dirname cwd ++ lit "/*/README.md";
    DATA_DOCS_DIR __dirname cwd ++ lit "/*" ].
Proof. reflexivity. Qed.

Lemma plain_getDataDocumentationFile (foo : jsstring) :
  plain foo = true → plain (getDataDocumentationFile foo) = true.
Proof.
  intros Hfoo. rewrite getDataDocumentationFile_spec.
  destruct (str_eqb foo (lit "core-data")); [done|].
  by rewrite !plain_app, Hfoo.
Qed.

Lemma expand_no_brace (p : jsstring) :
  forallb (λ c, negb (N.eqb c LBRACE)) p = true → expand p = [p].
Proof.
  intros Hp. unfold expand, brace_split.
  by rewrite take_while_all, drop_all.
Qed.

Lemma plain_no_brace (p : jsstring) :
  plain p = true → forallb (λ c, negb (N.eqb c LBRACE)) p = true.
Proof.
  induction p as [|c p IH]; [done|].
  intros (_ & Hb & Hp)%plain_cons. simpl. by rewrite Hb, IH.
Qed.

(** C3 (amended).  Let the packages and data documentation directories
    have no special character of the glob syntax.  For a list of files,
    not empty, that are all of one package [foo] whose name has no special
    character either, the two patterns match the README of [foo] and the
    data documentation file of [foo], and no other path.  For the empty
    list, the patterns match the README of every package and every file of
    the data documentation directory whose name is not empty, holds no
    slash and does not start with a dot. *)
Theorem patterns_scope_discovery :
  plain (PACKAGES_DIR __dirname cwd) = true →
  plain (DATA_DOCS_DIR __dirname cwd) = true →
  (∀ (files : list jsstring) (foo path : jsstring),
     files ≠ [] →
     (∀ f, f ∈ files → getFilePackage __dirname cwd f = foo) →
     plain foo = true →
     glob_match (glob_patterns __dirname cwd files) path = true ↔
     path = PACKAGES_DIR __dirname cwd ++ lit "/" ++ foo ++ lit "/README.md" ∨
     path = DATA_DOCS_DIR __dirname cwd ++ lit "/" ++
            getDataDocumentationFile foo) ∧
  (∀ name : jsstring,
     name ≠ [] → no_slash name = true → startsWith name [DOT] = false →
     glob_match (glob_patterns __dirname cwd [])
       (PACKAGES_DIR __dirname cwd ++ lit "/" ++ name ++ lit "/README.md")
       = true ∧
     glob_match (glob_patterns __dirname cwd [])
       (DATA_DOCS_DIR __dirname cwd ++ lit "/" ++ name) = true).
Proof.
  intros HP HD. split.
  - intros files foo path Hne Hall Hfoo.
    rewrite (glob_patterns_one files foo Hne Hall).
    apply glob_match_plain.
    + by rewrite !plain_app, HP, Hfoo.
    + by rewrite !plain_app, HD, plain_getDataDocumentationFile.
  - intros name Hne Hslash Hdot. rewrite glob_patterns_all.
    unfold glob_match. cbn [existsb].
    rewrite !expand_no_brace.
    2:{ rewrite forallb_app, plain_no_brace; done. }
    2:{ rewrite forallb_app, plain_no_brace; done. }
    cbn [existsb]. rewrite !orb_false_r. split.
    + apply orb_true_iff. left.
      change (lit "/*/README.md") with (SLASH :: STAR :: lit "/README.md").
      change (lit "/" ++ name ++ lit "/README.md")
        with (SLASH :: (name ++ lit "/README.md")).
      rewrite wild_dir by done. by apply wild_star.
    + apply orb_true_iff. right.
      change (lit "/*") with (SLASH :: [STAR]).
      change (lit "/" ++ name) with (SLASH :: name).
      rewrite wild_dir by done. rewrite <- (app_nil_r name) at 1.
      by apply wild_star.
Qed.

End PatternClaims.

(** * Tokens *)

Section TokenClaims.
Variables __dirname cwd : jsstring.

(** Whenever a path was captured, the identifier ends with a pipe and
    that path. *)
Lemma extracted_identifier_shape (content token path : jsstring) :
  (token, path) ∈ extract_tokens content →
  path = DEFAULT_PATH ∨ ∃ name, name ≠ [] ∧ token = name ++ PIPE :: path.
Proof.
  unfold extract_tokens, matchAll.
  intros (x & Heq & Hx)%list_elem_of_In%in_map_iff.
  apply list_elem_of_In, matchAll_from_elem in Hx as (j & y & Hy & Hg & _).
  apply token_match_inv in Hy as (body & _ & _ & _ & H1 & H2).
  unfold token_of_match in Heq. rewrite Hg in Heq.
  rewrite (lookup_total_correct _ _ _ H1) in Heq.
  destruct H2 as [H2|(n & p & Hn & _ & -> & H2)]; rewrite H2 in Heq;
    injection Heq as <- <-; [by left | right; by exists n].
Qed.

(** C5.  A marker that gives no path, [<!-- START TOKEN(name) -->], yields
    the token of identifier [name] and source path [src/index.js]: for a
    content whose first marker it is, the tokens are that token and the
    tokens of what follows the marker. *)
Theorem omitted_path_defaults (pre name post : jsstring) :
  includes pre TOKEN_START = false →
  well_formed_inner name = true →
  no_pipe (tail name) = true →
  extract_tokens (pre ++ marker name ++ post) =
  (name, lit "src/index.js") :: extract_tokens post.
Proof. intros Hpre%includes_false. by apply extract_tokens_plain. Qed.

(** C9.  A marker that gives a path, [<!-- START TOKEN(name|path) -->],
    yields the token whose identifier is the whole of [name|path], pipe
    and path included, and whose source path is [path]; the identifier is
    handed as it is to [--use-token]. *)
Theorem identifier_includes_path (file pre name path post : jsstring) :
  includes pre TOKEN_START = false →
  name ≠ [] → path ≠ [] →
  well_formed_inner (name ++ PIPE :: path) = true →
  no_pipe (tail name) = true →
  extract_tokens (pre ++ marker (name ++ PIPE :: path) ++ post) =
    (name ++ PIPE :: path, path) :: extract_tokens post ∧
  name ++ PIPE :: path ≠ name ∧
  inv_args (docgen_invocation __dirname cwd file (name ++ PIPE :: path, path))
    !! 3 =
    Some (lit "--use-token " ++ [34%N] ++ (name ++ PIPE :: path) ++ [34%N]).
Proof.
  intros Hocc%includes_false Hn Hp Hwf Hpipe. split_and!.
  - by apply extract_tokens_piped.
  - intros Heq%(f_equal length). rewrite length_app in Heq. simpl in Heq. lia.
  - reflexivity.
Qed.

End TokenClaims.

(** * Discovery *)

Section DiscoveryClaims.
Variables __dirname cwd : jsstring.

(** What the transform does with a file that yields no token. *)
Lemma transform_skips (w : env) (file : jsstring) (r : settled jsstring) :
  w _ [] (ReadFile file (lit "utf8")) = r →
  match r with
  | Fulfilled content => extract_tokens content = []
  | Rejected _ => True
  end →
  run w [] (filterTokenTransform file) =
    ([EvReadFile file (lit "utf8") r; EvCallback None], Returned tt) ∧
  pushed (fst (run w [] (filterTokenTransform file))) = [] ∧
  file_invocations __dirname cwd w file = [].
Proof.
  intros Hr Hnone.
  assert (Hrun : run w [] (filterTokenTransform file) =
                 ([EvReadFile file (lit "utf8") r; EvCallback None], Returned tt)).
  { rewrite filterTokenTransform_run. cbn zeta. rewrite Hr.
    destruct r as [[|c content]|e]; try done. by rewrite Hnone. }
  unfold file_invocations. rewrite Hrun. done.
Qed.

(** C6.  A file whose content holds no marker is dropped by the transform:
    the content is read, nothing is pushed, the callback is called without
    an error, and no [docgen] process is started for the file. *)
Theorem file_without_marker_is_dropped (w : env) (file content : jsstring) :
  w _ [] (ReadFile file (lit "utf8")) = Fulfilled content →
  ¬ has_marker content →
  run w [] (filterTokenTransform file) =
    ([EvReadFile file (lit "utf8") (Fulfilled content); EvCallback None],
     Returned tt) ∧
  pushed (fst (run w [] (filterTokenTransform file))) = [] ∧
  file_invocations __dirname cwd w file = [].
Proof.
  intros Hr Hno. apply transform_skips; [done|].
  by apply extract_tokens_nil_iff.
Qed.

(** C7.  A file that cannot be read is skipped in silence: the rejection
    of [readFile] is caught, nothing is pushed, the callback is called
    without an error, the transform returns, and no [docgen] process is
    started for the file. *)
Theorem unreadable_file_is_skipped (w : env) (file : jsstring) (e : js_error) :
  w _ [] (ReadFile file (lit "utf8")) = Rejected e →
  run w [] (filterTokenTransform file) =
    ([EvReadFile file (lit "utf8") (Rejected e); EvCallback None], Returned tt) ∧
  pushed (fst (run w [] (filterTokenTransform file))) = [] ∧
  file_invocations __dirname cwd w file = [].
Proof. intros Hr. by apply transform_skips. Qed.

(** C10.  A file that is read as the empty string is treated as a file
    that cannot be read: in both runs nothing is pushed, the only event
    after the read is the callback without an error, the transform
    returns, and no [docgen] process is started. *)
Theorem empty_file_is_treated_as_unreadable (w1 w2 : env) (file : jsstring)
    (e : js_error) :
  w1 _ [] (ReadFile file (lit "utf8")) = Fulfilled [] →
  w2 _ [] (ReadFile file (lit "utf8")) = Rejected e →
  run w1 [] (filterTokenTransform file) =
    ([EvReadFile file (lit "utf8") (Fulfilled []); EvCallback None], Returned tt) ∧
  run w2 [] (filterTokenTransform file) =
    ([EvReadFile file (lit "utf8") (Rejected e); EvCallback None], Returned tt) ∧
  pushed (fst (run w1 [] (filterTokenTransform file))) = [] ∧
  pushed (fst (run w2 [] (filterTokenTransform file))) = [] ∧
  file_invocations __dirname cwd w1 file = [] ∧
  file_invocations __dirname cwd w2 file = [].
Proof.
  intros H1 H2.
  destruct (transform_skips w1 file _ H1) as (? & ? & ?); [done|].
  destruct (transform_skips w2 file _ H2) as (? & ? & ?); [done|].
  done.
Qed.

(** A file that yields tokens is pushed with them. *)
Lemma transform_pushes (w : env) (file content : jsstring) :
  w _ [] (ReadFile file (lit "utf8")) = Fulfilled content →
  extract_tokens content ≠ [] →
  pushed (fst (run w [] (filterTokenTransform file))) =
    [(file, extract_tokens content)].
Proof.
  intros Hr Hne. rewrite filterTokenTransform_run. cbn zeta. rewrite Hr.
  destruct content as [|c content].
  - by vm_compute in Hne.
  - by destruct (extract_tokens (c :: content)).
Qed.

(** A file whose content holds a marker is pushed with its tokens. *)
Lemma file_with_marker_is_pushed (w : env) (file content : jsstring) :
  w _ [] (ReadFile file (lit "utf8")) = Fulfilled content →
  has_marker content →
  pushed (fst (run w [] (filterTokenTransform file))) =
    [(file, extract_tokens content)].
Proof.
  intros Hr Hm. apply transform_pushes; [done|].
  intros Hnil. by apply extract_tokens_nil_iff in Hnil.
Qed.

(** The [docgen] runs of a readable file follow the tokens of its content,
    in the order of the text, up to the first run that fails. *)
Lemma file_invocations_follow_content (w : env) (file content : jsstring) :
  w _ [] (ReadFile file (lit "utf8")) = Fulfilled content →
  ∃ n,
    file_invocations __dirname cwd w file =
    map (docgen_invocation __dirname cwd file) (take n (extract_tokens content)).
Proof.
  intros Hr. unfold file_invocations.
  destruct (decide (extract_tokens content = [])) as [Hnil|Hne].
  - destruct (transform_skips w file _ Hr Hnil) as (_ & Hp & _).
    rewrite Hp. exists 0. by rewrite take_0.
  - rewrite (transform_pushes w file content Hr Hne). cbn [flat_map].
    rewrite app_nil_r.
    set (tr := fst (run w [] (filterTokenTransform file))).
    destruct (run w tr (on_data __dirname cwd (file, extract_tokens content)))
      as [tr' out] eqn:Hrun.
    apply on_data_run_from in Hrun as (n & evs & _ & Hd & _ & Hseq & _).
    exists n. cbn [fst]. rewrite Hd. by apply in_sequence_spawned.
Qed.

End DiscoveryClaims.

(** * The listener *)

Section ListenerClaims.
Variables __dirname cwd : jsstring.

(** C1 (amended).  The listener starts [docgen] for the tokens of a file
    in their order, one process at a time: the events of a run are, for
    the first [n] tokens, the start of the process for the token followed
    at once by the await of its exit, every await but the last being
    fulfilled.  When no awaited process fails, [n] is the number of
    tokens: the invocations are those of the whole token sequence, in
    order, and the listener returns. *)
Theorem listener_invocations_follow_tokens (w : env) (file : jsstring)
    (tokens : list WPReadmeFileTokens) (tr tr' : list event)
    (out : outcome unit) :
  run w tr (on_data __dirname cwd (file, tokens)) = (tr', out) →
  ∃ n evs,
    tr' = tr ++ evs ∧
    n ≤ length tokens ∧
    in_sequence (map (docgen_invocation __dirname cwd file) (take n tokens)) evs ∧
    spawned evs = map (docgen_invocation __dirname cwd file) (take n tokens) ∧
    ((∀ r, r ∈ awaited evs → r = Fulfilled tt) →
     spawned evs = map (docgen_invocation __dirname cwd file) tokens ∧
     out = Returned tt).
Proof.
  intros (n & evs & -> & _ & Hn & Hseq & Hout)%on_data_run_from.
  exists n, evs. destruct (in_sequence_spawned _ _ Hseq) as (Hsp & _).
  split_and!; try done. intros Hall. destruct out as [[]|e].
  - destruct Hout as [-> _]. by rewrite Hsp, firstn_all.
  - destruct Hout as (k & _ & Hk & _).
    apply list_elem_of_lookup_2, Hall in Hk. discriminate.
Qed.

(** C8.  When the process started for a token fails, the rejection is
    thrown out of the listener: the token is the last one a process was
    started for, each earlier process was started once and awaited, and
    the run holds no event after the failed await. *)
Theorem listener_stops_at_first_failure (w : env) (file : jsstring)
    (tokens : list WPReadmeFileTokens) (tr tr' : list event)
    (out : outcome unit) (i : nat) (e : js_error) :
  run w tr (on_data __dirname cwd (file, tokens)) = (tr', out) →
  awaited (drop (length tr) tr') !! i = Some (Rejected e) →
  out = Threw e ∧ i < length tokens ∧
  ∃ evs,
    tr' = tr ++ evs ∧
    in_sequence (map (docgen_invocation __dirname cwd file) (take (S i) tokens)) evs ∧
    spawned evs = map (docgen_invocation __dirname cwd file) (take (S i) tokens) ∧
    length evs = 2 * S i.
Proof.
  intros (n & evs & -> & -> & Hn & Hseq & Hout)%on_data_run_from Hi.
  destruct (in_sequence_spawned _ _ Hseq) as (Hsp & Hlen & Hevs & _).
  rewrite length_map, length_take in Hlen, Hevs.
  destruct out as [[]|e'].
  - destruct Hout as [_ Hall].
    apply list_elem_of_lookup_2, Hall in Hi. discriminate.
  - destruct Hout as (k & -> & Hk & Hlt).
    assert (i = k) as ->.
    { apply lookup_lt_Some in Hi as Hi'.
      destruct (decide (i < k)) as [Hik|Hik]; [|lia].
      rewrite (Hlt i Hik) in Hi. discriminate. }
    rewrite Hk in Hi. injection Hi as ->.
    split_and!; [done | lia |]. exists evs. split_and!; try done. lia.
Qed.

(** Whatever the file and the paths of the tokens are, each process the
    listener starts is the invocation made from the token at the same
    position. *)
Lemma listener_invocation_arguments (w : env) (file : jsstring)
    (tokens : list WPReadmeFileTokens) (tr tr' : list event)
    (out : outcome unit) (i : nat) (inv : invocation) :
  run w tr (on_data __dirname cwd (file, tokens)) = (tr', out) →
  spawned (drop (length tr) tr') !! i = Some inv →
  ∃ token path,
    tokens !! i = Some (token, path) ∧
    inv_file inv =
      Path.join_paths [__dirname; lit ".."; lit ".."; lit "node_modules";
                       lit ".bin"; lit "docgen"] ∧
    inv_args inv =
      [ Path.relative cwd (ROOT_DIR __dirname cwd)
          (Path.resolve cwd [Path.dirname file; path]);
        lit "--output " ++ Path.relative cwd (ROOT_DIR __dirname cwd) file;
        lit "--to-token";
        lit "--use-token " ++ [34%N] ++ token ++ [34%N];
        lit "--ignore " ++ [34%N] ++ lit "/unstable|experimental/i" ++ [34%N] ] ∧
    inv_shell inv = true.
Proof.
  intros (n & evs & -> & -> & Hn & Hseq & _)%on_data_run_from Hi.
  destruct (in_sequence_spawned _ _ Hseq) as (Hsp & _).
  rewrite Hsp in Hi. apply map_lookup_Some in Hi as ([token path] & Htp & ->).
  apply lookup_take_Some in Htp as [Htp _].
  by exists token, path.
Qed.

(** For a file under the root and a clean source path, the first two
    arguments of [docgen] are the source path under the directory of the
    file and the file, both relative to the root. *)
Lemma docgen_arguments_under_root (rsegs dsegs psegs : list jsstring)
    (name token : jsstring) :
  ROOT_DIR __dirname cwd = absolute rsegs →
  Forall clean rsegs → Forall clean dsegs → Forall clean psegs →
  clean name → psegs ≠ [] →
  inv_args (docgen_invocation __dirname cwd (absolute (rsegs ++ dsegs ++ [name]))
              (token, join sep psegs)) =
  [ join sep (dsegs ++ psegs);
    lit "--output " ++ join sep (dsegs ++ [name]);
    lit "--to-token";
    lit "--use-token " ++ [34%N] ++ token ++ [34%N];
    lit "--ignore " ++ [34%N] ++ lit "/unstable|experimental/i" ++ [34%N] ].
Proof.
  intros Hroot Hr Hd Hp Hname Hne.
  destruct (paths_under_root cwd rsegs dsegs psegs name Hr Hd Hp Hname Hne)
    as [Hsrc Hout].
  unfold docgen_invocation. cbn [inv_args]. by rewrite Hroot, Hsrc, Hout.
Qed.

End ListenerClaims.

(** * The claims at concrete inputs *)

Lemma listener_invocations_follow_tokens_witness :
  ∃ n evs,
    fst (run (env_ok []) []
           (on_data sample_dirname sample_cwd (sample_file, sample_tokens)))
      = [] ++ evs ∧
    n ≤ length sample_tokens ∧
    in_sequence
      (map (docgen_invocation sample_dirname sample_cwd sample_file)
           (take n sample_tokens)) evs ∧
    spawned evs =
      map (docgen_invocation sample_dirname sample_cwd sample_file)
          (take n sample_tokens) ∧
    ((∀ r, r ∈ awaited evs → r = Fulfilled tt) →
     spawned evs =
       map (docgen_invocation sample_dirname sample_cwd sample_file)
           sample_tokens ∧
     snd (run (env_ok []) []
            (on_data sample_dirname sample_cwd (sample_file, sample_tokens)))
       = Returned tt).
Proof.
  apply (listener_invocations_follow_tokens sample_dirname sample_cwd
           (env_ok []) sample_file sample_tokens []).
  vm_compute. reflexivity.
Defined.

(** When the first process fails, the second token gets no process: the
    invocations are not those of the whole token sequence. *)
Lemma failed_process_cuts_invocations :
  spawned (fst (run (env_failing (lit "exit code 1")) []
                  (on_data sample_dirname sample_cwd
                     (sample_file, sample_tokens))))
    = map (docgen_invocation sample_dirname sample_cwd sample_file)
          (take 1 sample_tokens) ∧
  spawned (fst (run (env_failing (lit "exit code 1")) []
                  (on_data sample_dirname sample_cwd
                     (sample_file, sample_tokens))))
    ≠ map (docgen_invocation sample_dirname sample_cwd sample_file)
          sample_tokens.
Proof.
  split; [by vm_compute|].
  intros Heq%(f_equal length). vm_compute in Heq. discriminate.
Qed.

Lemma listener_stops_at_first_failure_witness :
  snd (run (env_failing (lit "exit code 1")) []
         (on_data sample_dirname sample_cwd (sample_file, sample_tokens)))
    = Threw (lit "exit code 1") ∧
  0 < length sample_tokens ∧
  ∃ evs,
    fst (run (env_failing (lit "exit code 1")) []
           (on_data sample_dirname sample_cwd (sample_file, sample_tokens)))
      = [] ++ evs ∧
    in_sequence
      (map (docgen_invocation sample_dirname sample_cwd sample_file)
           (take 1 sample_tokens)) evs ∧
    spawned evs =
      map (docgen_invocation sample_dirname sample_cwd sample_file)
          (take 1 sample_tokens) ∧
    length evs = 2 * 1.
Proof.
  apply (listener_stops_at_first_failure sample_dirname sample_cwd
           (env_failing (lit "exit code 1")) sample_file sample_tokens []).
  - vm_compute. reflexivity.
  - vm_compute. reflexivity.
Defined.

(** The arguments of the two sample invocations, as text. *)
Example sample_invocation_arguments :
  map inv_args
    (map (docgen_invocation sample_dirname sample_cwd sample_file)
       sample_tokens) =
  [ [ lit "packages/foo/src/index.js";
      lit "--output packages/foo/README.md";
      lit "--to-token";
      lit "--use-token " ++ [34%N] ++ lit "Autogenerated API docs" ++ [34%N];
      lit "--ignore " ++ [34%N] ++ lit "/unstable|experimental/i" ++ [34%N] ];
    [ lit "packages/foo/src/store/selectors.js";
      lit "--output packages/foo/README.md";
      lit "--to-token";
      lit "--use-token " ++ [34%N] ++
        lit "Autogenerated selectors|src/store/selectors.js" ++ [34%N];
      lit "--ignore " ++ [34%N] ++ lit "/unstable|experimental/i" ++ [34%N] ] ].
Proof. by vm_compute. Qed.

Lemma file_without_marker_is_dropped_witness :
  run (env_ok (lit "# Foo, without tokens")) [] (filterTokenTransform sample_file) =
    ([EvReadFile sample_file (lit "utf8")
        (Fulfilled (lit "# Foo, without tokens"));
      EvCallback None], Returned tt) ∧
  pushed (fst (run (env_ok (lit "# Foo, without tokens")) []
                 (filterTokenTransform sample_file))) = [] ∧
  file_invocations sample_dirname sample_cwd
    (env_ok (lit "# Foo, without tokens")) sample_file = [].
Proof.
  apply (file_without_marker_is_dropped sample_dirname sample_cwd
           (env_ok (lit "# Foo, without tokens")) sample_file
           (lit "# Foo, without tokens")).
  - reflexivity.
  - apply extract_tokens_nil_iff. vm_compute. reflexivity.
Defined.

Lemma unreadable_file_is_skipped_witness :
  run (env_failing (lit "ENOENT")) [] (filterTokenTransform sample_file) =
    ([EvReadFile sample_file (lit "utf8") (Rejected (lit "ENOENT"));
      EvCallback None], Returned tt) ∧
  pushed (fst (run (env_failing (lit "ENOENT")) []
                 (filterTokenTransform sample_file))) = [] ∧
  file_invocations sample_dirname sample_cwd
    (env_failing (lit "ENOENT")) sample_file = [].
Proof.
  apply (unreadable_file_is_skipped sample_dirname sample_cwd
           (env_failing (lit "ENOENT")) sample_file (lit "ENOENT")).
  reflexivity.
Defined.

Lemma empty_file_is_treated_as_unreadable_witness :
  run (env_ok []) [] (filterTokenTransform sample_file) =
    ([EvReadFile sample_file (lit "utf8") (Fulfilled []); EvCallback None],
     Returned tt) ∧
  run (env_failing (lit "ENOENT")) [] (filterTokenTransform sample_file) =
    ([EvReadFile sample_file (lit "utf8") (Rejected (lit "ENOENT"));
      EvCallback None], Returned tt) ∧
  pushed (fst (run (env_ok []) [] (filterTokenTransform sample_file))) = [] ∧
  pushed (fst (run (env_failing (lit "ENOENT")) []
                 (filterTokenTransform sample_file))) = [] ∧
  file_invocations sample_dirname sample_cwd (env_ok []) sample_file = [] ∧
  file_invocations sample_dirname sample_cwd
    (env_failing (lit "ENOENT")) sample_file = [].
Proof.
  apply (empty_file_is_treated_as_unreadable sample_dirname sample_cwd
           (env_ok []) (env_failing (lit "ENOENT")) sample_file (lit "ENOENT")).
  - reflexivity.
  - reflexivity.
Defined.

Lemma omitted_path_defaults_witness :
  extract_tokens
    (lit "# Foo " ++ marker (lit "Autogenerated API docs") ++ lit " text") =
  (lit "Autogenerated API docs", lit "src/index.js")
  :: extract_tokens (lit " text").
Proof.
  apply (omitted_path_defaults (lit "# Foo ") (lit "Autogenerated API docs")
           (lit " text")).
  - vm_compute. reflexivity.
  - vm_compute. reflexivity.
  - vm_compute. reflexivity.
Defined.

Lemma identifier_includes_path_witness :
  extract_tokens
    (lit "# Foo " ++
     marker (lit "Autogenerated selectors" ++
             PIPE :: lit "src/store/selectors.js") ++ lit " text") =
    (lit "Autogenerated selectors" ++ PIPE :: lit "src/store/selectors.js",
     lit "src/store/selectors.js") :: extract_tokens (lit " text") ∧
  lit "Autogenerated selectors" ++ PIPE :: lit "src/store/selectors.js"
    ≠ lit "Autogenerated selectors" ∧
  inv_args
    (docgen_invocation sample_dirname sample_cwd sample_file
       (lit "Autogenerated selectors" ++ PIPE :: lit "src/store/selectors.js",
        lit "src/store/selectors.js")) !! 3 =
    Some (lit "--use-token " ++ [34%N] ++
          (lit "Autogenerated selectors" ++
           PIPE :: lit "src/store/selectors.js") ++ [34%N]).
Proof.
  apply (identifier_includes_path sample_dirname sample_cwd sample_file
           (lit "# Foo ") (lit "Autogenerated selectors")
           (lit "src/store/selectors.js") (lit " text")).
  - vm_compute. reflexivity.
  - discriminate.
  - discriminate.
  - vm_compute. reflexivity.
  - vm_compute. reflexivity.
Defined.

Lemma package_name_inverts_file_name_witness :
  getDataDocumentationFilePackage
    (basename (getDataDocumentationFile (lit "block-editor")) (lit ".md"))
  = lit "block-editor".
Proof.
  apply (proj2 (proj2 package_name_inverts_file_name) (lit "block-editor")).
  - discriminate.
  - vm_compute. reflexivity.
Defined.

(** The pair the convention does not have: [core] is given the file
    [data-core-core.md], which is the file of no package, and
    [data-core-data.md] is the file of [data]. *)
Lemma core_is_not_paired_with_data_core_data :
  getDataDocumentationFile (lit "core") = lit "data-core-core.md" ∧
  getDataDocumentationFile (lit "core") ≠ lit "data-core-data.md" ∧
  getDataDocumentationFilePackage
    (basename (lit "data-core-data.md") (lit ".md")) = lit "data" ∧
  getDataDocumentationFilePackage
    (basename (lit "data-core-data.md") (lit ".md")) ≠ lit "core" ∧
  getDataDocumentationFilePackage
    (basename (getDataDocumentationFile (lit "core")) (lit ".md"))
    = lit "core-data".
Proof. split_and!; by vm_compute. Qed.

Lemma patterns_scope_discovery_witness :
  (glob_match
     (glob_patterns sample_dirname sample_cwd
        [lit "/home/user/gutenberg/packages/foo/src/index.js"; sample_file])
     sample_file = true) ∧
  glob_match (glob_patterns sample_dirname sample_cwd [])
    (PACKAGES_DIR sample_dirname sample_cwd ++ lit "/" ++ lit "foo" ++
     lit "/README.md") = true ∧
  glob_match (glob_patterns sample_dirname sample_cwd [])
    (DATA_DOCS_DIR sample_dirname sample_cwd ++ lit "/" ++ lit "foo") = true.
Proof.
  destruct (patterns_scope_discovery sample_dirname sample_cwd)
    as [Hone Hall].
  - vm_compute. reflexivity.
  - vm_compute. reflexivity.
  - split.
    + apply (Hone _ (lit "foo")).
      * discriminate.
      * intros f [->|[->|[]%elem_of_nil]%elem_of_cons]%elem_of_cons;
          vm_compute; reflexivity.
      * vm_compute. reflexivity.
      * left. vm_compute. reflexivity.
    + apply (Hall (lit "foo")).
      * discriminate.
      * vm_compute. reflexivity.
      * vm_compute. reflexivity.
Defined.

(** A file under a directory named [*] is of the package [*], and the
    patterns computed for it match the README of the package [bar]. *)
Lemma star_package_matches_other_packages :
  [lit "/home/user/gutenberg/packages/*/src/index.js"] ≠ [] ∧
  (∀ f, f ∈ [lit "/home/user/gutenberg/packages/*/src/index.js"] →
        getFilePackage sample_dirname sample_cwd f = lit "*") ∧
  glob_match
    (glob_patterns sample_dirname sample_cwd
       [lit "/home/user/gutenberg/packages/*/src/index.js"])
    (lit "/home/user/gutenberg/packages/bar/README.md") = true ∧
  getFilePackage sample_dirname sample_cwd
    (lit "/home/user/gutenberg/packages/bar/README.md") = lit "bar" ∧
  lit "/home/user/gutenberg/packages/bar/README.md" ≠
    PACKAGES_DIR sample_dirname sample_cwd ++ lit "/" ++ lit "*" ++
    lit "/README.md" ∧
  lit "/home/user/gutenberg/packages/bar/README.md" ≠
    DATA_DOCS_DIR sample_dirname sample_cwd ++ lit "/" ++
    getDataDocumentationFile (lit "*").
Proof.
  split_and!; try by vm_compute.
  intros f [->|[]%elem_of_nil]%elem_of_cons. by vm_compute.
Qed.

(** * Further properties of the script *)

(** ** Whole documents *)

Section TokenFacts.

Lemma includes_false_drop (s p : jsstring) (j : nat) :
  includes s p = false → startsWith (drop j s) p = false.
Proof.
  intros Hinc. apply not_true_iff_false. intros Hs.
  by apply (includes_false s p Hinc), (occurs_drop p s j).
Qed.

(** Without the opening of a marker, no token. *)
Lemma extract_tokens_no_start (s : jsstring) :
  includes s TOKEN_START = false → extract_tokens s = [].
Proof.
  intros Hinc. unfold extract_tokens, matchAll.
  rewrite matchAll_from_nil; [done|]. intros j.
  by apply token_match_no_start, includes_false_drop.
Qed.

Lemma str_eqb_false_neq (a b : jsstring) : str_eqb a b = false → a ≠ b.
Proof. unfold str_eqb. apply bool_decide_eq_false. Qed.

Lemma extract_tokens_piece (p : piece) (post : jsstring) :
  piece_ok p = true →
  extract_tokens (piece_text p ++ post) = piece_token p :: extract_tokens post.
Proof.
  unfold piece_ok, piece_text, piece_token, piece_inner.
  intros [[[[Hgap Hwf]%andb_true_iff Hname]%andb_true_iff Hpipe]%andb_true_iff
            Hpath]%andb_true_iff.
  apply negb_true_iff in Hgap. apply negb_true_iff, str_eqb_false_neq in Hname.
  apply includes_false in Hgap. rewrite <- app_assoc.
  destruct (p_path p) as [path|].
  - apply negb_true_iff, str_eqb_false_neq in Hpath.
    by apply extract_tokens_piped.
  - by apply extract_tokens_plain.
Qed.

(** A document made of well-formed markers, with text that holds no opening
    between and after them, yields the tokens of its markers, all of them
    and in their order. *)
Theorem document_yields_its_tokens (ps : list piece) (ending : jsstring) :
  forallb piece_ok ps = true →
  includes ending TOKEN_START = false →
  extract_tokens (document ps ending) = map piece_token ps.
Proof.
  intros Hps Hend. induction ps as [|p ps IH]; simpl.
  - by apply extract_tokens_no_start.
  - simpl in Hps. apply andb_true_iff in Hps as [Hp Hps].
    by rewrite extract_tokens_piece, IH.
Qed.


(** Every token the scan yields comes from a marker of the content: its
    identifier is not empty, is on one line and stands between an opening
    and a closing; its path is not empty and on one line, and is either the
    default or what follows a pipe in the identifier. *)
Theorem extracted_tokens_come_from_markers (content token path : jsstring) :
  (token, path) ∈ extract_tokens content →
  token ≠ [] ∧ forallb dot token = true ∧
  path ≠ [] ∧ forallb dot path = true ∧
  occurs (marker token) content ∧
  (path = DEFAULT_PATH ∨ ∃ name, name ≠ [] ∧ token = name ++ PIPE :: path).
Proof.
  unfold extract_tokens, matchAll.
  intros (x & Heq & Hx)%list_elem_of_In%in_map_iff.
  apply list_elem_of_In, matchAll_from_elem in Hx as (j & y & Hy & Hg & _).
  apply token_match_inv in Hy as (body & Hs & Hne & Hdot & H1 & H2).
  unfold token_of_match in Heq. rewrite Hg in Heq.
  rewrite (lookup_total_correct _ _ _ H1) in Heq.
  assert (Hocc : occurs (marker body) content).
  { exists (take j content), (ms_rest y). unfold marker.
    rewrite <- !app_assoc, <- Hs. by rewrite take_drop. }
  destruct H2 as [H2|(n & p & Hn & Hp & -> & H2)]; rewrite H2 in Heq;
    injection Heq as <- <-.
  - split_and!; try done. by left.
  - split_and!; try done.
    + rewrite forallb_app in Hdot. apply andb_true_iff in Hdot as [_ Hdot].
      by simpl in Hdot.
    + right. by exists n.
Qed.

Lemma token_end_one_line (c : N) :
  c ∈ TOKEN_END → is_line_terminator c = false.
Proof.
  intros Hc. by repeat (apply elem_of_cons in Hc as [->|Hc]; [done|]);
    apply elem_of_nil in Hc.
Qed.

(** A marker does not run over the end of a line: no match starts at an
    opening that is followed by a line terminator before any closing. *)
Theorem marker_never_spans_lines (text rest : jsstring) (c : N) :
  includes text TOKEN_END = false →
  is_line_terminator c = true →
  match_at TOKEN_PATTERN (TOKEN_START ++ text ++ c :: rest) = None.
Proof.
  intros Hinc%includes_false Hc.
  destruct (match_at TOKEN_PATTERN (TOKEN_START ++ text ++ c :: rest))
    as [y|] eqn:Hy; [exfalso|done].
  apply token_match_inv in Hy as (body & Hs & _ & Hdot & _).
  apply app_inv_head in Hs.
  assert (Hin : ∀ l1 l2, body = l1 ++ c :: l2 → False).
  { intros l1 l2 ->. rewrite forallb_app in Hdot.
    apply andb_true_iff in Hdot as [_ Hdot]. simpl in Hdot.
    unfold dot in Hdot. by rewrite Hc in Hdot. }
  assert (Hend : ∀ l1 l2, TOKEN_END = l1 ++ c :: l2 → False).
  { intros l1 l2 Heq.
    assert (Hmem : c ∈ TOKEN_END)
      by (rewrite Heq; apply elem_of_app; right; apply elem_of_cons; by left).
    apply token_end_one_line in Hmem. congruence. }
  apply app_eq_inv in Hs as [(k & Ht & Hk)|(k & Hb & Hk)].
  - apply app_eq_inv in Hk as [(k2 & He & Hk2)|(k2 & Hr & Hk2)].
    + destruct k2 as [|c' k2].
      * rewrite app_nil_r in He. subst k. apply Hinc. exists body, [].
        by rewrite app_nil_r.
      * injection Hk2 as <- _. by apply (Hend k k2).
    + apply Hinc. exists body, k2. by rewrite Ht, Hr.
  - destruct k as [|c' k].
    + assert (c = 41%N) as ->; [|by vm_compute in Hc].
      change (TOKEN_END ++ ms_rest y)
        with (41%N :: (lit " -->" ++ ms_rest y)) in Hk.
      by injection Hk.
    + injection Hk as <- _. by apply (Hin text k).
Qed.

End TokenFacts.

(** ** The directories of the script *)

Section Directories.
Variable cwd : jsstring.

Lemma normalize_segments_app (allowAboveRoot : bool)
    (acc segs rest : list jsstring) :
  Forall clean segs →
  normalize_segments allowAboveRoot acc (segs ++ rest) =
  normalize_segments allowAboveRoot (rev segs ++ acc) rest.
Proof.
  revert acc; induction segs as [|seg segs IH]; intros acc Hall; [done|].
  apply Forall_cons in Hall as [Hseg Hsegs].
  destruct (clean_not_special _ Hseg) as (H1 & H2 & H3).
  simpl. rewrite H1, H2, H3. simpl. rewrite IH by done.
  by rewrite <- app_assoc.
Qed.

Lemma normalize_segments_up (allowAboveRoot : bool) (seg : jsstring)
    (acc rest : list jsstring) :
  clean seg →
  normalize_segments allowAboveRoot (seg :: acc) (UP :: rest) =
  normalize_segments allowAboveRoot acc rest.
Proof.
  intros (_ & _ & _ & Hup). simpl. by rewrite (str_eqb_neq seg UP).
Qed.

Lemma normalize_segments_empty (allowAboveRoot : bool)
    (acc rest : list jsstring) :
  normalize_segments allowAboveRoot acc ([] :: rest) =
  normalize_segments allowAboveRoot acc rest.
Proof. reflexivity. Qed.

(** Two levels above a clean absolute directory. *)
Lemma resolve_two_up (rsegs : list jsstring) (a b : jsstring) :
  Forall clean rsegs → clean a → clean b →
  resolve cwd [absolute (rsegs ++ [a; b]); lit "../.."] = absolute rsegs.
Proof.
  intros Hr Ha Hb. unfold resolve. simpl rev.
  rewrite resolve_loop_relative by done.
  destruct (absolute_nonempty (rsegs ++ [a; b])) as [Hx Hab].
  rewrite (resolve_loop_absolute _ _ _ _ Hx Hab).
  assert (Heq : absolute (rsegs ++ [a; b]) ++ sep ++ lit "../.." ++ sep ++ [] =
                join sep ([] :: (rsegs ++ [a; b]) ++ [UP; UP; []])).
  { change (lit "../.." ++ sep ++ []) with (join sep [UP; UP; []]).
    rewrite app_comm_cons, join_app; [|done|done].
    unfold absolute. rewrite <- app_assoc.
    destruct (rsegs ++ [a; b]) eqn:E; [by destruct rsegs|].
    reflexivity. }
  rewrite Heq. rewrite split_join.
  - rewrite normalize_segments_empty, <- app_assoc.
    rewrite normalize_segments_app by done.
    rewrite app_nil_r.
    rewrite (normalize_segments_app _ _ [a; b])
      by (constructor; [done|by constructor]).
    change (rev [a; b] ++ rev rsegs) with (b :: a :: rev rsegs).
    change ([UP; UP; []]) with (UP :: UP :: [[]]).
    rewrite !normalize_segments_up by done.
    rewrite normalize_segments_empty.
    cbn [normalize_segments]. by rewrite rev_involutive.
  - done.
  - constructor; [done|]. apply Forall_app. split.
    + apply Forall_app. split.
      * eapply Forall_impl; [exact Hr|]. by intros ? (_ & ? & _).
      * destruct Ha as (_ & ? & _), Hb as (_ & ? & _). by repeat constructor.
    + by repeat constructor.
Qed.


Lemma join_empty_cons (l : list jsstring) :
  l ≠ [] → join sep ([] :: l) = SLASH :: join sep l.
Proof. by destruct l. Qed.

Lemma join_snoc (front : list jsstring) (l : jsstring) :
  ∃ x, join sep (front ++ [l]) = x ++ l.
Proof.
  induction front as [|f front [x IH]]; [by exists []|].
  exists (f ++ sep ++ x). cbn [app].
  destruct (front ++ [l]) eqn:E; [by destruct front|].
  rewrite join_cons, IH. by rewrite <- !app_assoc.
Qed.

(** A path whose last segment is clean does not end with a separator. *)
Lemma no_trailing_separator (segs : list jsstring) (x : jsstring) :
  segs ≠ [] → Forall clean segs →
  startsWith (rev (x ++ join sep segs)) sep = false.
Proof.
  intros Hne Hall.
  destruct (exists_last Hne) as (front & l & ->).
  apply Forall_app in Hall as [_ Hl]. apply Forall_cons in Hl as [Hl _].
  destruct Hl as (Hl & Hslash & _).
  destruct (join_snoc front l) as [y ->].
  destruct (exists_last Hl) as (l' & c & ->).
  rewrite !app_assoc, rev_unit.
  apply startsWith_head.
  unfold no_slash in Hslash. rewrite forallb_app in Hslash.
  apply andb_true_iff in Hslash as [_ Hc]. simpl in Hc.
  rewrite andb_true_r in Hc. apply negb_true_iff, N.eqb_neq in Hc.
  done.
Qed.

(** [normalize] on an absolute path given by its pieces. *)
Lemma normalize_absolute (parts segs : list jsstring) :
  parts ≠ [] → Forall (λ seg, no_slash seg = true) parts →
  normalize_segments false [] parts = segs →
  segs ≠ [] → Forall clean segs →
  startsWith (rev (SLASH :: join sep parts)) sep = false →
  normalize (SLASH :: join sep parts) = absolute segs.
Proof.
  intros Hne Hparts Hnorm Hsegs Hclean Htrail.
  destruct (join_clean_relative _ Hsegs Hclean) as [Hj _].
  assert (Hsplit : split SLASH (SLASH :: join sep parts) = [] :: parts).
  { rewrite <- join_empty_cons by done. apply split_join; [done|].
    by constructor. }
  unfold normalize. rewrite Htrail, Hsplit.
  rewrite (str_eqb_neq (SLASH :: join sep parts) []) by done.
  cbn [isAbsolute]. rewrite N.eqb_refl. cbn [negb].
  rewrite normalize_segments_empty, Hnorm.
  by rewrite (str_eqb_neq _ _ Hj).
Qed.

(** The path of a file of a dependency, from the directory of the script. *)
Lemma join_paths_two_up (rsegs psegs : list jsstring) (a b : jsstring) :
  Forall clean rsegs → clean a → clean b → Forall clean psegs → psegs ≠ [] →
  join_paths (absolute (rsegs ++ [a; b]) :: UP :: UP :: psegs) =
  absolute (rsegs ++ psegs).
Proof.
  intros Hr Ha Hb Hp Hne.
  assert (Hps : Forall (λ seg, no_slash seg = true) psegs).
  { eapply Forall_impl; [exact Hp|]. by intros ? (_ & ? & _). }
  assert (Hrs : Forall (λ seg, no_slash seg = true) rsegs).
  { eapply Forall_impl; [exact Hr|]. by intros ? (_ & ? & _). }
  assert (Hall : Forall clean (rsegs ++ psegs)) by by apply Forall_app.
  assert (Hne' : rsegs ++ psegs ≠ []) by by destruct rsegs, psegs.
  unfold join_paths.
  assert (Hf : filter (λ x : jsstring, x ≠ [])
                 (absolute (rsegs ++ [a; b]) :: UP :: UP :: psegs) =
               absolute (rsegs ++ [a; b]) :: UP :: UP :: psegs).
  { rewrite filter_cons_True by done.
    rewrite !(filter_cons_True _ UP) by done.
    f_equal. f_equal. f_equal. by apply filter_clean. }
  rewrite Hf.
  assert (Heq : join sep (absolute (rsegs ++ [a; b]) :: UP :: UP :: psegs) =
                SLASH :: join sep ((rsegs ++ [a; b]) ++ UP :: UP :: psegs)).
  { rewrite join_cons, join_app; [|by destruct rsegs|done].
    unfold absolute. by rewrite <- !app_assoc. }
  rewrite Heq. rewrite (str_eqb_neq (SLASH :: _) []) by done.
  apply normalize_absolute; [by destruct rsegs| | |done|done|].
  - apply Forall_app. split.
    + apply Forall_app. split; [done|].
      destruct Ha as (_ & ? & _), Hb as (_ & ? & _). by repeat constructor.
    + by repeat constructor.
  - rewrite <- app_assoc, normalize_segments_app by done.
    rewrite app_nil_r.
    rewrite (normalize_segments_app _ _ [a; b])
      by (constructor; [done|by constructor]).
    change (rev [a; b] ++ rev rsegs) with (b :: a :: rev rsegs).
    rewrite !normalize_segments_up by done.
    rewrite normalize_segments_clean.
    2:{ eapply Forall_impl; [exact Hp|]. by right. }
    by rewrite rev_involutive, (filter_clean _ Hp).
  - change (UP :: UP :: psegs) with ([UP; UP] ++ psegs).
    rewrite app_assoc, join_app; [|by destruct rsegs|done].
    rewrite app_comm_cons, app_assoc.
    by apply no_trailing_separator.
Qed.


Lemma clean_lit_packages : clean (lit "packages").
Proof. by repeat split. Qed.

Lemma clean_data_docs :
  Forall clean
    [lit "docs"; lit "designers-developers"; lit "developers"; lit "data"].
Proof. by repeat constructor. Qed.

Lemma clean_docgen : Forall clean [lit "node_modules"; lit ".bin"; lit "docgen"].
Proof. by repeat constructor. Qed.

Lemma root_dir_from_script (rsegs : list jsstring) (a b : jsstring) :
  Forall clean rsegs → clean a → clean b →
  ROOT_DIR (absolute (rsegs ++ [a; b])) cwd = absolute rsegs.
Proof. apply resolve_two_up. Qed.

Lemma packages_dir_from_script (rsegs : list jsstring) (a b : jsstring) :
  Forall clean rsegs → clean a → clean b →
  PACKAGES_DIR (absolute (rsegs ++ [a; b])) cwd =
  absolute (rsegs ++ [lit "packages"]).
Proof.
  intros Hr Ha Hb. unfold PACKAGES_DIR. rewrite root_dir_from_script by done.
  apply (resolve_two cwd rsegs [lit "packages"]); [done| |done].
  constructor; [apply clean_lit_packages|constructor].
Qed.

Lemma data_docs_dir_from_script (rsegs : list jsstring) (a b : jsstring) :
  Forall clean rsegs → clean a → clean b →
  DATA_DOCS_DIR (absolute (rsegs ++ [a; b])) cwd =
  absolute (rsegs ++ [lit "docs"; lit "designers-developers";
                      lit "developers"; lit "data"]).
Proof.
  intros Hr Ha Hb. unfold DATA_DOCS_DIR. rewrite root_dir_from_script by done.
  apply (resolve_two cwd rsegs
           [lit "docs"; lit "designers-developers"; lit "developers";
            lit "data"]); [done|apply clean_data_docs|done].
Qed.

(** The directories of the script are fixed by the place of the script
    alone: the root is two levels above it, whatever the working directory
    is, and the packages and the data documentation are under the root. *)
Theorem directories_follow_script (rsegs : list jsstring) (a b : jsstring) :
  Forall clean rsegs → clean a → clean b →
  ROOT_DIR (absolute (rsegs ++ [a; b])) cwd = absolute rsegs ∧
  PACKAGES_DIR (absolute (rsegs ++ [a; b])) cwd =
    absolute (rsegs ++ [lit "packages"]) ∧
  DATA_DOCS_DIR (absolute (rsegs ++ [a; b])) cwd =
    absolute (rsegs ++ [lit "docs"; lit "designers-developers";
                        lit "developers"; lit "data"]).
Proof.
  intros Hr Ha Hb. split_and!.
  - by apply root_dir_from_script.
  - by apply packages_dir_from_script.
  - by apply data_docs_dir_from_script.
Qed.

Lemma absolute_app (segs rest : list jsstring) :
  segs ≠ [] → rest ≠ [] →
  absolute (segs ++ rest) = absolute segs ++ sep ++ join sep rest.
Proof.
  intros Hs Hr. unfold absolute. rewrite join_app by done.
  by rewrite <- app_assoc.
Qed.

Lemma absolute_snoc_app (segs : list jsstring) (seg suffix : jsstring) :
  absolute (segs ++ [seg ++ suffix]) = absolute (segs ++ [seg]) ++ suffix.
Proof.
  unfold absolute. destruct segs as [|x segs]; [by rewrite <- app_assoc|].
  rewrite !(join_app (x :: segs)) by done. cbn [join].
  by rewrite <- !app_assoc.
Qed.

Lemma drop_common_differ (segs : list jsstring) (x y : jsstring)
    (rest : list jsstring) :
  x ≠ y → drop_common (segs ++ [x]) (segs ++ y :: rest) = ([x], y :: rest).
Proof.
  intros Hne. induction segs as [|seg segs IH].
  - simpl. by rewrite (str_eqb_neq x y).
  - simpl. by rewrite str_eqb_refl.
Qed.

(** A file under the packages directory belongs to the package named by
    the first segment of its path under that directory. *)
Theorem package_of_file_under_packages (rsegs : list jsstring) (a b : jsstring)
    (package : jsstring) (rest : list jsstring) :
  Forall clean rsegs → clean a → clean b →
  clean package → Forall clean rest →
  getFilePackage (absolute (rsegs ++ [a; b])) cwd
    (absolute (rsegs ++ lit "packages" :: package :: rest)) = package.
Proof.
  intros Hr Ha Hb Hp Hrest.
  assert (Hpackages := packages_dir_from_script rsegs a b Hr Ha Hb).
  unfold getFilePackage. rewrite Hpackages.
  change (rsegs ++ lit "packages" :: package :: rest)
    with (rsegs ++ [lit "packages"] ++ package :: rest).
  rewrite app_assoc.
  assert (Hps : Forall clean (rsegs ++ [lit "packages"])).
  { apply Forall_app. split; [done|].
    constructor; [apply clean_lit_packages|constructor]. }
  rewrite (absolute_app (rsegs ++ [lit "packages"])) at 1;
    [|by destruct rsegs|done].
  rewrite startsWith_app.
  rewrite relative_under; [|done|by constructor|done].
  rewrite split_join; [done|done|].
  apply clean_no_slash. eapply Forall_impl; [|by right].
  by constructor.
Qed.

(** The test for the packages directory compares characters, not
    segments: a file in a directory beside the packages directory whose name
    begins with [packages] is taken for a file of the package [..]. *)
Theorem sibling_of_packages_is_package_up (rsegs : list jsstring) (a b : jsstring)
    (suffix : jsstring) (rest : list jsstring) :
  Forall clean rsegs → clean a → clean b →
  suffix ≠ [] → no_slash suffix = true → Forall clean rest →
  getFilePackage (absolute (rsegs ++ [a; b])) cwd
    (absolute (rsegs ++ (lit "packages" ++ suffix) :: rest)) = lit "..".
Proof.
  intros Hr Ha Hb Hs Hslash Hrest.
  assert (Hpackages := packages_dir_from_script rsegs a b Hr Ha Hb).
  assert (Hdir : clean (lit "packages" ++ suffix)).
  { split_and!; [done| |done|done].
    unfold no_slash. rewrite forallb_app. by apply andb_true_iff. }
  assert (Hne : lit "packages" ≠ lit "packages" ++ suffix).
  { intros Heq. rewrite <- (app_nil_r (lit "packages")) in Heq at 1.
    by apply app_inv_head in Heq. }
  assert (Hps : Forall clean (rsegs ++ [lit "packages"])).
  { apply Forall_app. split; [done|].
    constructor; [apply clean_lit_packages|constructor]. }
  assert (Hto : Forall clean (rsegs ++ (lit "packages" ++ suffix) :: rest)).
  { apply Forall_app. split; [done|]. by constructor. }
  assert (Hneq : absolute (rsegs ++ [lit "packages"]) ≠
                 absolute (rsegs ++ (lit "packages" ++ suffix) :: rest)).
  { intros Heq%(f_equal segments). rewrite !segments_absolute in Heq by done.
    apply app_inv_head in Heq. by injection Heq. }
  unfold getFilePackage. rewrite Hpackages.
  assert (Hstarts : startsWith
            (absolute (rsegs ++ (lit "packages" ++ suffix) :: rest))
            (absolute (rsegs ++ [lit "packages"])) = true).
  { apply startsWith_prefix.
    destruct rest as [|r rest'].
    - rewrite absolute_snoc_app. by eexists.
    - change (rsegs ++ (lit "packages" ++ suffix) :: r :: rest')
        with (rsegs ++ [lit "packages" ++ suffix] ++ r :: rest').
      rewrite (app_assoc rsegs),
        (absolute_app (rsegs ++ [lit "packages" ++ suffix]));
        [|by intros [_ ?]%app_eq_nil|done].
      rewrite absolute_snoc_app, <- app_assoc. by eexists. }
  rewrite Hstarts.
  unfold relative. rewrite (str_eqb_neq _ _ Hneq), !resolve_one by done.
  rewrite (str_eqb_neq _ _ Hneq), !segments_absolute by done.
  rewrite drop_common_differ by done.
  change (map (λ _, UP) [lit "packages"] ++ (lit "packages" ++ suffix) :: rest)
    with (UP :: (lit "packages" ++ suffix) :: rest).
  rewrite split_join; [done|done|].
  constructor; [done|]. apply clean_no_slash.
  eapply Forall_impl; [|by right]. by constructor.
Qed.


Lemma take_while_stop (f : N → bool) (s rest : jsstring) (c : N) :
  forallb f s = true → f c = false → take_while f (s ++ c :: rest) = s.
Proof.
  intros Hs Hc. induction s as [|x s IH]; simpl; [by rewrite Hc|].
  simpl in Hs. apply andb_true_iff in Hs as [-> Hs]. by rewrite IH.
Qed.

Lemma startsWith_common (x s p : jsstring) :
  startsWith (x ++ s) (x ++ p) = startsWith s p.
Proof. induction x as [|c x IH]; [done|]. simpl. by rewrite N.eqb_refl. Qed.

(** The package of a file that is not under the packages directory and
    bears the name of the data documentation file of a package. *)
Lemma package_of_data_documentation_name (__dirname dir package : jsstring) :
  startsWith (dir ++ lit "/" ++ getDataDocumentationFile package)
    (PACKAGES_DIR __dirname cwd) = false →
  package ≠ lit "core" → no_slash package = true →
  getFilePackage __dirname cwd
    (dir ++ lit "/" ++ getDataDocumentationFile package) = package.
Proof.
  intros Hout Hcore Hslash. unfold getFilePackage. rewrite Hout.
  rewrite getDataDocumentationFile_spec.
  destruct (str_eqb package (lit "core-data")) eqn:Hcd.
  - apply str_eqb_eq in Hcd as ->.
    change (lit "/" ++ lit "data-core.md")
      with (SLASH :: lit "data-core" ++ lit ".md").
    by rewrite basename_md_dir.
  - change (lit "/" ++ lit "data-core-" ++ package ++ lit ".md")
      with (SLASH :: lit "data-core-" ++ package ++ lit ".md").
    rewrite (app_assoc (lit "data-core-")), basename_md_dir.
    + rewrite getDataDocumentationFilePackage_conventional.
      by rewrite str_eqb_neq.
    + done.
    + unfold no_slash in *. by rewrite forallb_app, Hslash.
Qed.


(** Nothing of the data documentation directory is under the packages
    directory. *)
Lemma data_docs_outside_packages (rsegs : list jsstring) (rest : jsstring) :
  startsWith
    (absolute (rsegs ++ [lit "docs"; lit "designers-developers";
                         lit "developers"; lit "data"]) ++ rest)
    (absolute (rsegs ++ [lit "packages"])) = false.
Proof.
  destruct rsegs as [|r rsegs]; [done|].
  rewrite !(absolute_app (r :: rsegs)) by done.
  rewrite <- !app_assoc, !startsWith_common. reflexivity.
Qed.

(** The data documentation file of a package, given as an argument,
    selects that package: the patterns name the README of the package and
    the file itself. *)
Theorem data_documentation_file_selects_its_package
    (rsegs : list jsstring) (a b package : jsstring) :
  Forall clean rsegs → clean a → clean b →
  package ≠ lit "core" → no_slash package = true →
  getFilePackage (absolute (rsegs ++ [a; b])) cwd
    (DATA_DOCS_DIR (absolute (rsegs ++ [a; b])) cwd ++ lit "/" ++
     getDataDocumentationFile package) = package ∧
  glob_patterns (absolute (rsegs ++ [a; b])) cwd
    [DATA_DOCS_DIR (absolute (rsegs ++ [a; b])) cwd ++ lit "/" ++
     getDataDocumentationFile package] =
  [ PACKAGES_DIR (absolute (rsegs ++ [a; b])) cwd ++ lit "/" ++ package ++
      lit "/README.md";
    DATA_DOCS_DIR (absolute (rsegs ++ [a; b])) cwd ++ lit "/" ++
      getDataDocumentationFile package ].
Proof.
  intros Hr Ha Hb Hcore Hslash.
  assert (Hpkg : getFilePackage (absolute (rsegs ++ [a; b])) cwd
            (DATA_DOCS_DIR (absolute (rsegs ++ [a; b])) cwd ++ lit "/" ++
             getDataDocumentationFile package) = package).
  { apply package_of_data_documentation_name; [|done|done].
    rewrite (packages_dir_from_script rsegs a b Hr Ha Hb).
    rewrite (data_docs_dir_from_script rsegs a b Hr Ha Hb).
    apply data_docs_outside_packages. }
  split; [done|].
  apply glob_patterns_one; [done|].
  by intros f ->%list_elem_of_singleton.
Qed.

(** The run for a token, from the place of the script: for a file
    under the root and a clean source path, the binary and the two paths
    among the arguments are fixed by the root, not by the working
    directory. *)
Theorem docgen_run_from_script (rsegs dsegs psegs : list jsstring)
    (a b name token : jsstring) :
  Forall clean rsegs → clean a → clean b →
  Forall clean dsegs → clean name → Forall clean psegs → psegs ≠ [] →
  docgen_invocation (absolute (rsegs ++ [a; b])) cwd
    (absolute (rsegs ++ dsegs ++ [name])) (token, join sep psegs) =
  Invocation
    (absolute (rsegs ++ [lit "node_modules"; lit ".bin"; lit "docgen"]))
    [ join sep (dsegs ++ psegs);
      lit "--output " ++ join sep (dsegs ++ [name]);
      lit "--to-token";
      lit "--use-token " ++ [34%N] ++ token ++ [34%N];
      lit "--ignore " ++ [34%N] ++ lit "/unstable|experimental/i" ++ [34%N] ]
    true.
Proof.
  intros Hr Ha Hb Hd Hname Hp Hne.
  destruct (paths_under_root cwd rsegs dsegs psegs name Hr Hd Hp Hname Hne)
    as [Hsrc Hout].
  unfold docgen_invocation.
  rewrite (root_dir_from_script rsegs a b Hr Ha Hb), Hsrc, Hout.
  f_equal.
  apply (join_paths_two_up rsegs
           [lit "node_modules"; lit ".bin"; lit "docgen"]);
    [done|done|done|apply clean_docgen|done].
Qed.

End Directories.

(** ** The arguments of the runs *)

Section ListenerPaths.
Variable cwd : jsstring.


End ListenerPaths.

(** ** Names *)

Section NamingInjective.

Lemma getPackageStoreName_spec (packageName : jsstring) :
  getPackageStoreName packageName =
  if str_eqb packageName (lit "core-data") then lit "core"
  else lit "core/" ++ packageName.
Proof.
  unfold getPackageStoreName.
  by destruct (str_eqb packageName (lit "core-data")).
Qed.

Lemma getPackageStoreName_inj (p q : jsstring) :
  getPackageStoreName p = getPackageStoreName q → p = q.
Proof.
  rewrite !getPackageStoreName_spec.
  destruct (str_eqb p (lit "core-data")) eqn:Hp,
           (str_eqb q (lit "core-data")) eqn:Hq; intros Heq.
  - apply str_eqb_eq in Hp, Hq. congruence.
  - apply (f_equal (drop 4)) in Heq. discriminate Heq.
  - apply (f_equal (drop 4)) in Heq. discriminate Heq.
  - by apply app_inv_head in Heq.
Qed.

Lemma getDataDocumentationFile_inj (p q : jsstring) :
  getDataDocumentationFile p = getDataDocumentationFile q → p = q.
Proof.
  rewrite !getDataDocumentationFile_spec.
  destruct (str_eqb p (lit "core-data")) eqn:Hp,
           (str_eqb q (lit "core-data")) eqn:Hq; intros Heq.
  - apply str_eqb_eq in Hp, Hq. congruence.
  - apply (f_equal (drop 9)) in Heq. discriminate Heq.
  - apply (f_equal (drop 9)) in Heq. discriminate Heq.
  - by apply app_inv_head, app_inv_tail in Heq.
Qed.

(** Two packages never share a store name or a data documentation
    file. *)
Theorem distinct_packages_have_distinct_names (p q : jsstring) :
  p ≠ q →
  getPackageStoreName p ≠ getPackageStoreName q ∧
  getDataDocumentationFile p ≠ getDataDocumentationFile q.
Proof.
  intros Hne. split; intros Heq; apply Hne.
  - by apply getPackageStoreName_inj.
  - by apply getDataDocumentationFile_inj.
Qed.

End NamingInjective.

(** ** Patterns for several packages *)

Section BracedPatterns.
Variables __dirname cwd : jsstring.

Lemma set_to_array_elem (x : jsstring) (seen xs : list jsstring) :
  x ∈ set_to_array seen xs ↔ x ∈ xs ∧ x ∉ seen.
Proof.
  revert seen; induction xs as [|y xs IH]; intros seen; simpl.
  - split; [by intros ?%elem_of_nil|by intros [?%elem_of_nil _]].
  - destruct (bool_decide_reflect (y ∈ seen)) as [Hy|Hy].
    + rewrite IH, elem_of_cons. split.
      * intros [? ?]. split; [by right|done].
      * intros [[->|?] ?]; done.
    + rewrite elem_of_cons, IH, !elem_of_cons. split.
      * intros [->|[? Hx]]; [split; [by left|done]|].
        split; [by right|]. intros ?. apply Hx. by right.
      * intros [[->|Hx] Hs]; [by left|].
        destruct (decide (x = y)) as [->|Hne]; [by left|right].
        split; [done|]. by intros [?|?].
Qed.

Lemma set_to_array_NoDup (seen xs : list jsstring) :
  NoDup (set_to_array seen xs).
Proof.
  revert seen; induction xs as [|y xs IH]; intros seen; simpl; [constructor|].
  destruct (bool_decide_reflect (y ∈ seen)) as [Hy|Hy]; [apply IH|].
  constructor; [|apply IH].
  intros [_ Hn]%set_to_array_elem. apply Hn, elem_of_cons. by left.
Qed.

Lemma split_ne_without (c : N) (s : jsstring) :
  forallb (λ x, negb (N.eqb x c)) s = true → split_ne c s = (s, []).
Proof.
  induction s as [|a s IH]; simpl; [done|].
  intros [Ha Hs]%andb_true_iff. rewrite (IH Hs).
  apply negb_true_iff in Ha. by rewrite Ha.
Qed.

Lemma split_ne_at (c : N) (s rest : jsstring) :
  forallb (λ x, negb (N.eqb x c)) s = true →
  split_ne c (s ++ c :: rest) = (s, split c rest).
Proof.
  induction s as [|a s IH]; simpl.
  - intros _. unfold split. rewrite N.eqb_refl. by destruct (split_ne c rest).
  - intros [Ha Hs]%andb_true_iff. rewrite (IH Hs).
    apply negb_true_iff in Ha. by rewrite Ha.
Qed.

(** [split] undoes [join] when no piece holds the separator. *)
Lemma split_join_char (c : N) (xs : list jsstring) :
  xs ≠ [] → Forall (λ x, forallb (λ a, negb (N.eqb a c)) x = true) xs →
  split c (join [c] xs) = xs.
Proof.
  induction xs as [|x xs IH]; [done|]. intros _ Hall.
  apply Forall_cons in Hall as [Hx Hxs].
  destruct xs as [|x' xs].
  - unfold split. cbn [join]. by rewrite split_ne_without.
  - change (join [c] (x :: x' :: xs)) with (x ++ c :: join [c] (x' :: xs)).
    unfold split at 1. rewrite split_ne_at by done. f_equal. by apply IH.
Qed.

Lemma forallb_join (f : N → bool) (c : N) (xs : list jsstring) :
  f c = true → Forall (λ x, forallb f x = true) xs →
  forallb f (join [c] xs) = true.
Proof.
  intros Hc. induction xs as [|x xs IH]; [done|]. intros Hall.
  apply Forall_cons in Hall as [Hx Hxs].
  destruct xs as [|x' xs]; [done|].
  change (join [c] (x :: x' :: xs)) with (x ++ c :: join [c] (x' :: xs)).
  rewrite forallb_app, Hx. cbn [forallb]. rewrite Hc. by apply IH.
Qed.

Lemma plain_without (c : N) (s : jsstring) :
  is_special c = true → plain s = true →
  forallb (λ x, negb (N.eqb x c)) s = true.
Proof.
  intros Hc. induction s as [|a s IH]; [done|].
  unfold plain. simpl. intros [Ha Hs]%andb_true_iff. rewrite (IH Hs).
  destruct (N.eqb_spec a c) as [->|]; [|done].
  by rewrite Hc in Ha.
Qed.

(** The parts of a pattern with one braced list of plain alternatives. *)
Lemma brace_split_plain (before after : jsstring) (alts : list jsstring) :
  plain before = true → Forall (λ a, plain a = true) alts → alts ≠ [] →
  brace_split (before ++ LBRACE :: join [COMMA] alts ++ RBRACE :: after) =
  Some (before, alts, after).
Proof.
  intros Hb Halts Hne. unfold brace_split.
  rewrite take_while_stop; [|by apply (plain_without LBRACE)|done].
  rewrite drop_app_length.
  rewrite take_while_stop; [| |done].
  - rewrite drop_app_length. rewrite split_join_char; [done|done|].
    eapply Forall_impl; [exact Halts|]. intros a Ha.
    by apply (plain_without COMMA).
  - apply forallb_join; [done|].
    eapply Forall_impl; [exact Halts|]. intros a Ha.
    by apply (plain_without RBRACE).
Qed.

Lemma existsb_wild_plain (g : jsstring → jsstring) (alts : list jsstring)
    (path : jsstring) :
  Forall (λ a, plain (g a) = true) alts →
  existsb (λ e, wild e path true) (map g alts) = true ↔
  ∃ a, a ∈ alts ∧ path = g a.
Proof.
  intros Hall. rewrite existsb_exists. split.
  - intros (e & (a & <- & Ha)%in_map_iff & He).
    exists a. apply list_elem_of_In in Ha. split; [done|].
    rewrite Forall_forall in Hall. rewrite wild_plain in He by by apply Hall.
    by apply str_eqb_eq.
  - intros (a & Ha & ->). exists (g a). split.
    + apply in_map_iff. exists a. by rewrite <- list_elem_of_In.
    + rewrite Forall_forall in Hall. rewrite wild_plain by by apply Hall.
      apply str_eqb_refl.
Qed.

Lemma name_char_not_special (c : N) :
  name_char c = true → is_special c = false.
Proof.
  intros Hc. destruct (is_special c) eqn:E; [|done].
  apply bool_decide_eq_true in E.
  repeat (apply elem_of_cons in E as [->|E]; [by vm_compute in Hc|]).
  by apply elem_of_nil in E.
Qed.

Lemma simple_name_plain (s : jsstring) : simple_name s = true → plain s = true.
Proof.
  intros [_ Hs]%andb_true_iff. unfold plain.
  induction s as [|c s IH]; simpl; [done|].
  simpl in Hs. apply andb_true_iff in Hs as [Hc Hs].
  rewrite (name_char_not_special c Hc). by apply IH.
Qed.

Lemma simple_path_plain (s : jsstring) : simple_path s = true → plain s = true.
Proof.
  unfold simple_path, plain. induction s as [|c s IH]; simpl; [done|].
  intros [Hc Hs]%andb_true_iff.
  rewrite (IH Hs), andb_true_r. apply orb_true_iff in Hc as [Hc|Hc].
  - by rewrite (name_char_not_special c Hc).
  - apply N.eqb_eq in Hc as ->. reflexivity.
Qed.

(** A simple name starts with neither a dot nor [^]. *)
Lemma simple_name_head (s : jsstring) :
  simple_name s = true →
  startsWith s [CARET] = false ∧ startsWith s [DOT] = false.
Proof.
  intros [_ Hs]%andb_true_iff. destruct s as [|c s]; [done|].
  simpl in Hs. apply andb_true_iff in Hs as [Hc _].
  split; apply startsWith_head; by intros <-.
Qed.

Lemma getDataDocumentationFile_head (packageName : jsstring) :
  startsWith (getDataDocumentationFile packageName) [CARET] = false ∧
  startsWith (getDataDocumentationFile packageName) [DOT] = false.
Proof.
  rewrite getDataDocumentationFile_spec.
  by destruct (str_eqb packageName (lit "core-data")).
Qed.

(** The paths matched by a pattern that names its alternatives, plain ones
    that start with neither a dot nor [^]: one alternative is named as it
    is, more are a braced list. *)
Lemma pattern_of_alternatives (before after path : jsstring)
    (alts : list jsstring) :
  plain before = true → plain after = true →
  Forall (λ a, plain a = true) alts →
  Forall (λ a, startsWith a [CARET] = false ∧ startsWith a [DOT] = false)
    alts →
  alts ≠ [] →
  existsb (λ e, wild e path true)
    (expand (before ++
             match alts with
             | [a] => a
             | _ => lit "{" ++ join (lit ",") alts ++ lit "}"
             end ++ after)) = true ↔
  ∃ a, a ∈ alts ∧ path = before ++ a ++ after.
Proof.
  intros Hb Ha Halts Hheads Hne.
  assert (Hg : Forall (λ a, plain (before ++ a ++ after) = true) alts).
  { eapply Forall_impl; [exact Halts|]. intros a Hp.
    by rewrite !plain_app, Hb, Hp, Ha. }
  destruct alts as [|a1 [|a2 alts]]; [done| |].
  - apply Forall_cons in Hg as [Hg _]. rewrite expand_plain by done.
    cbn [existsb]. rewrite orb_false_r, wild_plain, str_eqb_eq by done.
    split; [intros ->; exists a1; split; [apply elem_of_cons; by left|done]|].
    by intros (a & ->%list_elem_of_singleton & ->).
  - change (before ++ (lit "{" ++ join (lit ",") (a1 :: a2 :: alts) ++ lit "}")
              ++ after)
      with (before ++ (LBRACE :: join [COMMA] (a1 :: a2 :: alts) ++ [RBRACE])
              ++ after).
    replace (before ++ (LBRACE :: join [COMMA] (a1 :: a2 :: alts) ++ [RBRACE])
              ++ after)
      with (before ++ LBRACE :: join [COMMA] (a1 :: a2 :: alts) ++
              RBRACE :: after).
    2:{ cbn [app]. by rewrite <- !app_assoc. }
    assert (Hcaret : existsb (λ a, startsWith a [CARET]) (a1 :: a2 :: alts)
                     = false).
    { clear -Hheads. induction Hheads as [|a l [Hc _] _ IH]; [done|].
      cbn [existsb]. by rewrite IH, Hc. }
    assert (Hdot : ∀ seg : bool,
              List.filter (λ a, negb (seg && startsWith a [DOT]))
                (a1 :: a2 :: alts) = a1 :: a2 :: alts).
    { intros seg. clear -Hheads.
      induction Hheads as [|a l [_ Hd] _ IH]; [done|].
      cbn [List.filter]. by rewrite Hd, andb_false_r, IH. }
    unfold expand. rewrite brace_split_plain by done.
    cbv beta iota zeta. rewrite Hcaret, Hdot.
    by apply (existsb_wild_plain (λ a, before ++ a ++ after)).
Qed.

(** For any list of files, not empty, of one package or of several, whose
    packages have simple names, under directories with simple paths, the
    two patterns match the README and the data documentation file of each
    of these packages, and no other path. *)
Theorem patterns_name_the_packages_of_the_files (files : list jsstring)
    (path : jsstring) :
  files ≠ [] →
  simple_path (PACKAGES_DIR __dirname cwd) = true →
  simple_path (DATA_DOCS_DIR __dirname cwd) = true →
  (∀ f, f ∈ files → simple_name (getFilePackage __dirname cwd f) = true) →
  glob_match (glob_patterns __dirname cwd files) path = true ↔
  ∃ f, f ∈ files ∧
    (path = PACKAGES_DIR __dirname cwd ++ lit "/" ++
            getFilePackage __dirname cwd f ++ lit "/README.md" ∨
     path = DATA_DOCS_DIR __dirname cwd ++ lit "/" ++
            getDataDocumentationFile (getFilePackage __dirname cwd f)).
Proof.
  intros Hne Hpd%simple_path_plain Hdd%simple_path_plain Hsimple.
  set (packages := set_to_array [] (map (getFilePackage __dirname cwd) files)).
  assert (Hmem : ∀ p, p ∈ packages ↔
                      ∃ f, f ∈ files ∧ p = getFilePackage __dirname cwd f).
  { intros p. unfold packages. rewrite set_to_array_elem. split.
    - intros [(f & <- & Hf)%list_elem_of_In%in_map_iff _].
      exists f. by rewrite list_elem_of_In.
    - intros (f & Hf & ->). split; [|by intros ?%elem_of_nil].
      apply list_elem_of_In, in_map_iff. exists f.
      by rewrite <- list_elem_of_In. }
  assert (Hsn : Forall (λ p, simple_name p = true) packages).
  { apply Forall_forall. intros p (f & Hf & ->)%Hmem. by apply Hsimple. }
  assert (Hpk : Forall (λ p, plain p = true) packages).
  { eapply Forall_impl; [exact Hsn|]. apply simple_name_plain. }
  assert (Hph : Forall (λ a, startsWith a [CARET] = false ∧
                             startsWith a [DOT] = false) packages).
  { eapply Forall_impl; [exact Hsn|]. apply simple_name_head. }
  assert (Hpne : packages ≠ []).
  { unfold packages. by destruct files. }
  assert (Hdocs : Forall (λ p, plain p = true)
                    (map getDataDocumentationFile packages)).
  { apply Forall_forall.
    intros d (p & <- & Hp)%list_elem_of_In%in_map_iff.
    apply plain_getDataDocumentationFile.
    rewrite Forall_forall in Hpk. by apply Hpk, list_elem_of_In. }
  assert (Hdh : Forall (λ a, startsWith a [CARET] = false ∧
                             startsWith a [DOT] = false)
                  (map getDataDocumentationFile packages)).
  { apply Forall_forall.
    intros d (p & <- & _)%list_elem_of_In%in_map_iff.
    apply getDataDocumentationFile_head. }
  assert (Hdne : map getDataDocumentationFile packages ≠ []).
  { by destruct packages. }
  assert (H1 := pattern_of_alternatives (PACKAGES_DIR __dirname cwd ++ lit "/")
                  (lit "/README.md") path packages).
  assert (H2 := pattern_of_alternatives (DATA_DOCS_DIR __dirname cwd ++ lit "/")
                  [] path (map getDataDocumentationFile packages)).
  rewrite plain_app, Hpd in H1. rewrite plain_app, Hdd in H2.
  specialize (H1 eq_refl eq_refl Hpk Hph Hpne).
  specialize (H2 eq_refl eq_refl Hdocs Hdh Hdne).
  unfold glob_match, glob_patterns, getPackagePattern,
    getDataDocumentationPattern.
  destruct files as [|f0 files]; [done|].
  fold packages. cbn [existsb]. rewrite orb_false_r, orb_true_iff.
  rewrite <- (app_assoc _ (lit "/")) in H1. rewrite H1.
  rewrite app_nil_r, <- (app_assoc _ (lit "/")) in H2. rewrite H2.
  split.
  - intros [(p & (f & Hf & ->)%Hmem & ->)|(d & Hd & ->)].
    + exists f. split; [done|]. left. by rewrite <- app_assoc.
    + apply list_elem_of_In, in_map_iff in Hd as (p & <- & Hp).
      apply list_elem_of_In, Hmem in Hp as (f & Hf & ->).
      exists f. split; [done|]. right. by rewrite <- app_assoc, app_nil_r.
  - intros (f & Hf & [->| ->]).
    + left. exists (getFilePackage __dirname cwd f). split.
      * apply Hmem. by exists f.
      * by rewrite <- app_assoc.
    + right. exists (getDataDocumentationFile (getFilePackage __dirname cwd f)).
      split.
      * apply list_elem_of_In, in_map_iff.
        exists (getFilePackage __dirname cwd f). split; [done|].
        apply list_elem_of_In, Hmem. by exists f.
      * by rewrite <- app_assoc, app_nil_r.
Qed.

(** Each package of the files given is named once in the patterns,
    however many of the files belong to it, and so is its data
    documentation file. *)
Theorem each_package_is_named_once (files : list jsstring) :
  files ≠ [] →
  ∃ packages,
    NoDup packages ∧
    NoDup (map getDataDocumentationFile packages) ∧
    (∀ p, p ∈ packages ↔
          ∃ f, f ∈ files ∧ p = getFilePackage __dirname cwd f) ∧
    getPackagePattern __dirname cwd files =
      match packages with
      | [package] => package
      | _ => lit "{" ++ join (lit ",") packages ++ lit "}"
      end ∧
    getDataDocumentationPattern __dirname cwd files =
      match map getDataDocumentationFile packages with
      | [docFile] => docFile
      | _ => lit "{" ++ join (lit ",") (map getDataDocumentationFile packages)
               ++ lit "}"
      end.
Proof.
  intros Hne.
  exists (set_to_array [] (map (getFilePackage __dirname cwd) files)).
  split_and!.
  - apply set_to_array_NoDup.
  - apply NoDup_fmap_2_strong; [|apply set_to_array_NoDup].
    intros p q _ _ Heq. by apply getDataDocumentationFile_inj.
  - intros p. rewrite set_to_array_elem. split.
    + intros [(f & <- & Hf)%list_elem_of_In%in_map_iff _].
      exists f. by rewrite list_elem_of_In.
    + intros (f & Hf & ->). split; [|by intros ?%elem_of_nil].
      apply list_elem_of_In, in_map_iff. exists f.
      by rewrite <- list_elem_of_In.
  - by destruct files.
  - by destruct files.
Qed.

End BracedPatterns.

(** ** From the file to the runs *)

Section TransformShape.
Variables __dirname cwd : jsstring.

(** Whatever the file system answers, the transform reads the file once,
    pushes at most one chunk, which is the file with a list of tokens that is
    not empty, calls the callback once, last and without an error, and
    returns. *)
Theorem transform_reads_once_calls_back_once (w : env) (tr : list event)
    (file : jsstring) :
  ∃ r chunks,
    run w tr (filterTokenTransform file) =
      (tr ++ EvReadFile file (lit "utf8") r :: map EvPush chunks
          ++ [EvCallback None], Returned tt) ∧
    (chunks = [] ∨
     ∃ content, r = Fulfilled content ∧ extract_tokens content ≠ [] ∧
                chunks = [(file, extract_tokens content)]).
Proof.
  rewrite filterTokenTransform_run. cbn zeta.
  exists (w _ tr (ReadFile file (lit "utf8"))).
  destruct (w _ tr (ReadFile file (lit "utf8"))) as [[|c content]|e].
  - exists []. rewrite <- app_assoc. split; [done | by left].
  - destruct (extract_tokens (c :: content)) as [|t ts] eqn:Htok.
    + exists []. rewrite <- app_assoc. split; [done | by left].
    + exists [(file, t :: ts)]. rewrite <- app_assoc. split; [done|].
      right. exists (c :: content). by rewrite Htok.
  - exists []. rewrite <- app_assoc. split; [done | by left].
Qed.

Lemma extract_tokens_has_marker (content : jsstring) :
  extract_tokens content ≠ [] → has_marker content.
Proof.
  destruct (extract_tokens content) as [|tp l] eqn:E; [done|]. intros _.
  assert (Hin : tp ∈ extract_tokens content).
  { rewrite E. apply elem_of_cons. by left. }
  unfold extract_tokens, matchAll in Hin.
  apply list_elem_of_In, in_map_iff in Hin as (x & _ & Hx).
  apply list_elem_of_In, matchAll_from_elem in Hx as (j & y & Hy & _).
  apply token_match_inv in Hy as (body & Hs & Hne & Hdot & _).
  exists (take j content), body, (ms_rest y). split; [|done].
  unfold marker. rewrite <- !app_assoc, <- Hs. by rewrite take_drop.
Qed.

(** What the transform pushes: the file with the tokens of its content,
    exactly when the file is read and its content holds a marker. *)
Theorem file_is_pushed_iff_marker (w : env) (file : jsstring)
    (chunk : WPReadmeFileData) :
  chunk ∈ pushed (fst (run w [] (filterTokenTransform file))) ↔
  ∃ content,
    w _ [] (ReadFile file (lit "utf8")) = Fulfilled content ∧
    has_marker content ∧
    chunk = (file, extract_tokens content).
Proof.
  destruct (w _ [] (ReadFile file (lit "utf8"))) as [content|e] eqn:Hr.
  - destruct (decide (extract_tokens content = [])) as [Hnil|Hne].
    + destruct (transform_skips __dirname cwd w file _ Hr Hnil) as (_ & -> & _).
      split; [by intros ?%elem_of_nil|].
      intros (c & [= <-] & Hm & _). by apply extract_tokens_nil_iff in Hnil.
    + rewrite (transform_pushes w file content Hr Hne). split.
      * intros ->%list_elem_of_singleton. exists content.
        split_and!; [done| |done]. by apply extract_tokens_has_marker.
      * intros (c & [= <-] & _ & ->). by apply list_elem_of_singleton.
  - destruct (transform_skips __dirname cwd w file _ Hr I) as (_ & -> & _).
    split; [by intros ?%elem_of_nil|]. by intros (c & ? & _).
Qed.

End TransformShape.

Section EndToEnd.
Variables __dirname cwd : jsstring.

(** With processes that never fail, the listener runs through the whole
    list of tokens and returns. *)
Lemma on_data_all_fulfilled (w : env) (file : jsstring)
    (tokens : list WPReadmeFileTokens) (tr : list event) :
  always_fulfils w →
  ∃ evs,
    run w tr (on_data __dirname cwd (file, tokens)) = (tr ++ evs, Returned tt) ∧
    in_sequence (map (docgen_invocation __dirname cwd file) tokens) evs.
Proof.
  intros Hw. revert tr; induction tokens as [|tp tokens IH]; intros tr.
  - exists []. rewrite on_data_nil, app_nil_r. split; [done | constructor].
  - rewrite on_data_cons. cbn zeta. rewrite Hw.
    set (promise := w _ tr (Execa (docgen_invocation __dirname cwd file tp))).
    destruct (IH ((tr ++ [EvExeca (docgen_invocation __dirname cwd file tp)
                            promise]) ++ [EvAwait promise (Fulfilled tt)]))
      as (evs & Hrun & Hseq).
    exists (EvExeca (docgen_invocation __dirname cwd file tp) promise
            :: EvAwait promise (Fulfilled tt) :: evs).
    split; [by rewrite Hrun, <- !app_assoc | by constructor].
Qed.

(** When [docgen] never fails, a readable file gets one run for each token
    of its content, in the order of the text. *)
Theorem every_token_is_processed (w : env) (file content : jsstring) :
  w _ [] (ReadFile file (lit "utf8")) = Fulfilled content →
  always_fulfils w →
  file_invocations __dirname cwd w file =
  map (docgen_invocation __dirname cwd file) (extract_tokens content).
Proof.
  intros Hr Hw. unfold file_invocations.
  destruct (decide (extract_tokens content = [])) as [Hnil|Hne].
  - destruct (transform_skips __dirname cwd w file _ Hr Hnil) as (_ & Hp & _).
    by rewrite Hp, Hnil.
  - rewrite (transform_pushes w file content Hr Hne). cbn [flat_map].
    rewrite app_nil_r.
    set (tr := fst (run w [] (filterTokenTransform file))).
    destruct (on_data_all_fulfilled w file (extract_tokens content) tr Hw)
      as (evs & Hrun & Hseq).
    rewrite Hrun. cbn [fst]. rewrite drop_app_length.
    by apply in_sequence_spawned.
Qed.

End EndToEnd.

(** * The further properties at concrete inputs *)


Lemma document_yields_its_tokens_witness :
  extract_tokens
    (document
       [ Piece (lit "# Foo ") (lit "Autogenerated actions") None;
         Piece (lit " and ") (lit "Autogenerated selectors")
           (Some (lit "src/store/selectors.js")) ]
       (lit " end")) =
  [ (lit "Autogenerated actions", lit "src/index.js");
    (lit "Autogenerated selectors|src/store/selectors.js",
     lit "src/store/selectors.js") ].
Proof.
  apply (document_yields_its_tokens
           [ Piece (lit "# Foo ") (lit "Autogenerated actions") None;
             Piece (lit " and ") (lit "Autogenerated selectors")
               (Some (lit "src/store/selectors.js")) ]
           (lit " end")).
  - vm_compute. reflexivity.
  - vm_compute. reflexivity.
Defined.

Lemma extracted_tokens_come_from_markers_witness :
  lit "a|b.js" ≠ [] ∧ forallb dot (lit "a|b.js") = true ∧
  lit "b.js" ≠ [] ∧ forallb dot (lit "b.js") = true ∧
  occurs (marker (lit "a|b.js")) (lit "# Foo " ++ marker (lit "a|b.js")) ∧
  (lit "b.js" = DEFAULT_PATH ∨
   ∃ name, name ≠ [] ∧ lit "a|b.js" = name ++ PIPE :: lit "b.js").
Proof.
  apply (extracted_tokens_come_from_markers
           (lit "# Foo " ++ marker (lit "a|b.js"))).
  vm_compute. left.
Defined.

Lemma marker_never_spans_lines_witness :
  match_at TOKEN_PATTERN
    (TOKEN_START ++ lit "name" ++ 10%N :: lit "rest) -->") = None.
Proof.
  apply (marker_never_spans_lines (lit "name") (lit "rest) -->") 10%N).
  - vm_compute. reflexivity.
  - vm_compute. reflexivity.
Defined.

Lemma directories_follow_script_witness :
  ROOT_DIR
    (absolute ([lit "home"; lit "user"; lit "gutenberg"] ++
               [lit "bin"; lit "api-docs"])) (lit "/tmp") =
    absolute [lit "home"; lit "user"; lit "gutenberg"] ∧
  PACKAGES_DIR
    (absolute ([lit "home"; lit "user"; lit "gutenberg"] ++
               [lit "bin"; lit "api-docs"])) (lit "/tmp") =
    absolute ([lit "home"; lit "user"; lit "gutenberg"] ++ [lit "packages"]) ∧
  DATA_DOCS_DIR
    (absolute ([lit "home"; lit "user"; lit "gutenberg"] ++
               [lit "bin"; lit "api-docs"])) (lit "/tmp") =
    absolute ([lit "home"; lit "user"; lit "gutenberg"] ++
              [lit "docs"; lit "designers-developers"; lit "developers";
               lit "data"]).
Proof.
  apply (directories_follow_script (lit "/tmp")
           [lit "home"; lit "user"; lit "gutenberg"]
           (lit "bin") (lit "api-docs")).
  - repeat constructor; discriminate.
  - repeat constructor; discriminate.
  - repeat constructor; discriminate.
Defined.

Lemma package_of_file_under_packages_witness :
  getFilePackage
    (absolute ([lit "home"; lit "user"; lit "gutenberg"] ++
               [lit "bin"; lit "api-docs"])) (lit "/tmp")
    (absolute ([lit "home"; lit "user"; lit "gutenberg"] ++
               lit "packages" :: lit "foo" :: [lit "src"; lit "index.js"])) =
  lit "foo".
Proof.
  apply (package_of_file_under_packages (lit "/tmp")
           [lit "home"; lit "user"; lit "gutenberg"]
           (lit "bin") (lit "api-docs") (lit "foo")
           [lit "src"; lit "index.js"]).
  - repeat constructor; discriminate.
  - repeat constructor; discriminate.
  - repeat constructor; discriminate.
  - repeat constructor; discriminate.
  - repeat constructor; discriminate.
Defined.

Lemma sibling_of_packages_is_package_up_witness :
  getFilePackage
    (absolute ([lit "home"; lit "user"; lit "gutenberg"] ++
               [lit "bin"; lit "api-docs"])) (lit "/tmp")
    (absolute ([lit "home"; lit "user"; lit "gutenberg"] ++
               (lit "packages" ++ lit "-extra") ::
               [lit "foo"; lit "README.md"])) =
  lit "..".
Proof.
  apply (sibling_of_packages_is_package_up (lit "/tmp")
           [lit "home"; lit "user"; lit "gutenberg"]
           (lit "bin") (lit "api-docs") (lit "-extra")
           [lit "foo"; lit "README.md"]).
  - repeat constructor; discriminate.
  - repeat constructor; discriminate.
  - repeat constructor; discriminate.
  - discriminate.
  - vm_compute. reflexivity.
  - repeat constructor; discriminate.
Defined.

Lemma data_documentation_file_selects_its_package_witness :
  getFilePackage
    (absolute ([lit "home"; lit "user"; lit "gutenberg"] ++
               [lit "bin"; lit "api-docs"])) (lit "/tmp")
    (DATA_DOCS_DIR
       (absolute ([lit "home"; lit "user"; lit "gutenberg"] ++
                  [lit "bin"; lit "api-docs"])) (lit "/tmp") ++ lit "/" ++
     getDataDocumentationFile (lit "block-editor")) = lit "block-editor" ∧
  glob_patterns
    (absolute ([lit "home"; lit "user"; lit "gutenberg"] ++
               [lit "bin"; lit "api-docs"])) (lit "/tmp")
    [DATA_DOCS_DIR
       (absolute ([lit "home"; lit "user"; lit "gutenberg"] ++
                  [lit "bin"; lit "api-docs"])) (lit "/tmp") ++ lit "/" ++
     getDataDocumentationFile (lit "block-editor")] =
  [ PACKAGES_DIR
      (absolute ([lit "home"; lit "user"; lit "gutenberg"] ++
                 [lit "bin"; lit "api-docs"])) (lit "/tmp") ++ lit "/" ++
      lit "block-editor" ++ lit "/README.md";
    DATA_DOCS_DIR
      (absolute ([lit "home"; lit "user"; lit "gutenberg"] ++
                 [lit "bin"; lit "api-docs"])) (lit "/tmp") ++ lit "/" ++
      getDataDocumentationFile (lit "block-editor") ].
Proof.
  apply (data_documentation_file_selects_its_package (lit "/tmp")
           [lit "home"; lit "user"; lit "gutenberg"]
           (lit "bin") (lit "api-docs") (lit "block-editor")).
  - repeat constructor; discriminate.
  - repeat constructor; discriminate.
  - repeat constructor; discriminate.
  - discriminate.
  - vm_compute. reflexivity.
Defined.

Lemma docgen_run_from_script_witness :
  docgen_invocation
    (absolute ([lit "home"; lit "user"; lit "gutenberg"] ++
               [lit "bin"; lit "api-docs"])) (lit "/tmp")
    (absolute ([lit "home"; lit "user"; lit "gutenberg"] ++
               [lit "packages"; lit "foo"] ++ [lit "README.md"]))
    (lit "Autogenerated selectors|src/store/selectors.js",
     join sep [lit "src"; lit "store"; lit "selectors.js"]) =
  Invocation
    (absolute ([lit "home"; lit "user"; lit "gutenberg"] ++
               [lit "node_modules"; lit ".bin"; lit "docgen"]))
    [ join sep ([lit "packages"; lit "foo"] ++
                [lit "src"; lit "store"; lit "selectors.js"]);
      lit "--output " ++
        join sep ([lit "packages"; lit "foo"] ++ [lit "README.md"]);
      lit "--to-token";
      lit "--use-token " ++ [34%N] ++
        lit "Autogenerated selectors|src/store/selectors.js" ++ [34%N];
      lit "--ignore " ++ [34%N] ++ lit "/unstable|experimental/i" ++ [34%N] ]
    true.
Proof.
  apply (docgen_run_from_script (lit "/tmp")
           [lit "home"; lit "user"; lit "gutenberg"]
           [lit "packages"; lit "foo"]
           [lit "src"; lit "store"; lit "selectors.js"]
           (lit "bin") (lit "api-docs") (lit "README.md")).
  - repeat constructor; discriminate.
  - repeat constructor; discriminate.
  - repeat constructor; discriminate.
  - repeat constructor; discriminate.
  - repeat constructor; discriminate.
  - repeat constructor; discriminate.
  - discriminate.
Defined.

Lemma distinct_packages_have_distinct_names_witness :
  getPackageStoreName (lit "core-data") ≠ getPackageStoreName (lit "core") ∧
  getDataDocumentationFile (lit "core-data") ≠
    getDataDocumentationFile (lit "core").
Proof.
  apply (distinct_packages_have_distinct_names (lit "core-data") (lit "core")).
  discriminate.
Defined.

Lemma patterns_name_the_packages_of_the_files_witness :
  glob_match
    (glob_patterns sample_dirname sample_cwd
       [ sample_file;
         lit "/home/user/gutenberg/packages/bar/src/index.js";
         lit "/home/user/gutenberg/packages/foo/src/index.js" ])
    (lit "/home/user/gutenberg/packages/bar/README.md") = true ↔
  ∃ f,
    f ∈ [ sample_file;
          lit "/home/user/gutenberg/packages/bar/src/index.js";
          lit "/home/user/gutenberg/packages/foo/src/index.js" ] ∧
    (lit "/home/user/gutenberg/packages/bar/README.md" =
       PACKAGES_DIR sample_dirname sample_cwd ++ lit "/" ++
       getFilePackage sample_dirname sample_cwd f ++ lit "/README.md" ∨
     lit "/home/user/gutenberg/packages/bar/README.md" =
       DATA_DOCS_DIR sample_dirname sample_cwd ++ lit "/" ++
       getDataDocumentationFile (getFilePackage sample_dirname sample_cwd f)).
Proof.
  apply (patterns_name_the_packages_of_the_files sample_dirname sample_cwd).
  - discriminate.
  - vm_compute. reflexivity.
  - vm_compute. reflexivity.
  - intros f [->|[->|[->|[]%elem_of_nil]%elem_of_cons]%elem_of_cons]%elem_of_cons;
      vm_compute; reflexivity.
Defined.

Lemma each_package_is_named_once_witness :
  ∃ packages,
    NoDup packages ∧
    NoDup (map getDataDocumentationFile packages) ∧
    (∀ p, p ∈ packages ↔
          ∃ f, f ∈ [ sample_file;
                     lit "/home/user/gutenberg/packages/bar/src/index.js";
                     lit "/home/user/gutenberg/packages/foo/src/index.js" ] ∧
               p = getFilePackage sample_dirname sample_cwd f) ∧
    getPackagePattern sample_dirname sample_cwd
      [ sample_file;
        lit "/home/user/gutenberg/packages/bar/src/index.js";
        lit "/home/user/gutenberg/packages/foo/src/index.js" ] =
      match packages with
      | [package] => package
      | _ => lit "{" ++ join (lit ",") packages ++ lit "}"
      end ∧
    getDataDocumentationPattern sample_dirname sample_cwd
      [ sample_file;
        lit "/home/user/gutenberg/packages/bar/src/index.js";
        lit "/home/user/gutenberg/packages/foo/src/index.js" ] =
      match map getDataDocumentationFile packages with
      | [docFile] => docFile
      | _ => lit "{" ++ join (lit ",") (map getDataDocumentationFile packages)
               ++ lit "}"
      end.
Proof.
  apply (each_package_is_named_once sample_dirname sample_cwd).
  discriminate.
Defined.

Lemma every_token_is_processed_witness :
  file_invocations sample_dirname sample_cwd
    (env_ok (lit "# Foo " ++ marker (lit "Autogenerated actions")))
    sample_file =
  map (docgen_invocation sample_dirname sample_cwd sample_file)
    (extract_tokens (lit "# Foo " ++ marker (lit "Autogenerated actions"))).
Proof.
  apply (every_token_is_processed sample_dirname sample_cwd
           (env_ok (lit "# Foo " ++ marker (lit "Autogenerated actions")))
           sample_file).
  - reflexivity.
  - intros tr promise. reflexivity.
Defined.
